(** * memcacheha: the replicated cache client of client.go

    A shallow embedding of [Client] (client.go): the six replicated
    operations [Add], [Set], [Get], [Increment], [Delete], [Touch] and the
    two supervisor tasks [GetNodes] and [HealthCheck].

    What client.go calls but does not define (the per-node operations of
    [Node], the [NodeList], the [NodeSource]s, the logger) is the
    environment: every call to it is recorded in a trace, and what it
    answers is an input of the model. *)

From stdpp Require Import gmap strings list fin_maps.
From Stdlib Require Import ZArith Lia.

#[local] Set Warnings "-clear-no-such-hyp".

Open Scope string_scope.
Open Scope nat_scope.
Open Scope list_scope.

(** ** Data model *)

(** Modelled from the spec: the error values client.go compares with [==]
    are declared outside it.  [ErrCacheMiss] and [ErrNotStored] are the
    driver's; [ErrOther] stands for any other error a node publishes
    (transport failures, client errors). *)
Inductive error : Type :=
  | ErrCacheMiss
  | ErrNotStored
  | ErrNoHealthyNodes
  | ErrAlreadyRunning
  | ErrUnknown
  | ErrOther (msg : string).

Global Instance error_eq_dec : EqDecision error.
Proof. solve_decision. Defined.

(** Modelled from the spec: the struct [Item] is declared outside client.go,
    which reads its fields [Key] and [Expiration] (a pointer, [None] when
    nil). *)
Record Item : Type := mkItem {
  Key : string;
  Value : string;
  Expiration : option Z
}.

Global Instance Item_eq_dec : EqDecision Item.
Proof. solve_decision. Defined.

(** Modelled from the spec: the struct [Node] is declared outside client.go.
    A [*Node] is identified by the endpoint it wraps (the NodeList keeps one
    node per endpoint); its health flag is read through [GetHealthyNodes]
    and [GetHealthyNodeCount] only, see [Env]. *)
Record Node : Type := mkNode { Endpoint : string }.

Global Instance Node_eq_dec : EqDecision Node.
Proof. solve_decision. Defined.

Global Instance Node_countable : Countable Node :=
  inj_countable' Endpoint mkNode (fun n => match n with mkNode _ => eq_refl end).

(** Modelled from the spec: [NodeResponse] and its constructor
    [NewNodeResponse(node, item, err, newValue)] are declared outside
    client.go.  Pointers are options, [None] for nil; [NewValue] is a uint64. *)
Record NodeResponse : Type := NewNodeResponse {
  resp_Node : option Node;
  resp_Item : option Item;
  resp_Error : option error;
  resp_NewValue : Z
}.

(** ** Calls into the environment *)

Inductive NodeOp : Type :=
  | OpAdd (item : Item)
  | OpSet (item : Item)
  | OpGet (key : string)
  | OpIncrement (key : string) (delta : Z)
  | OpDelete (key : string)
  | OpTouch (key : string) (seconds : Z).

Inductive Level : Type := Info | Warn | Error.

(** [Dispatch n op reply] is the call [n.op(..., ch)]: [reply] is [true] when
    [ch] is the operation's status channel and [false] when it is nil (an
    asynchronous repair write whose outcome nobody reads).  [Probe n] is the
    call [n.HealthCheck()], [Log] a call of the logger with its format. *)
Inductive Event : Type :=
  | Dispatch (n : option Node) (op : NodeOp) (reply : bool)
  | Probe (n : Node)
  | Log (lvl : Level) (fmt : string).

Global Instance NodeOp_eq_dec : EqDecision NodeOp.
Proof. solve_decision. Defined.
Global Instance Level_eq_dec : EqDecision Level.
Proof. solve_decision. Defined.
Global Instance Event_eq_dec : EqDecision Event.
Proof. solve_decision. Defined.

(** ** The aggregator monad

    State of one running operation: what its status channel will still
    deliver, in arrival order, and the calls issued so far. *)
Record GoState : Type := mkState {
  chan : list NodeResponse;
  trace : list Event
}.

Inductive Res (A : Type) : Type :=
  | Ret (a : A)
  | Panic
  | Block.
Arguments Ret {A} a.
Arguments Panic {A}.
Arguments Block {A}.

Definition Go (A : Type) : Type := GoState → Res A * GoState.

Global Instance Go_ret : MRet Go := λ A a s, (Ret a, s).

Global Instance Go_bind : MBind Go := λ A B f m s,
  match m s with
  | (Ret a, s') => f a s'
  | (Panic, s') => (Panic, s')
  | (Block, s') => (Block, s')
  end.

(** [<-statusChan]: the next arrival, or wait forever when none comes. *)
Definition recv : Go NodeResponse := λ s,
  match chan s with
  | [] => (Block, s)
  | r :: rest => (Ret r, mkState rest (trace s))
  end.

Definition emit (e : Event) : Go unit := λ s,
  (Ret tt, mkState (chan s) (trace s ++ [e])).

Definition panic {A : Type} : Go A := λ s, (Panic, s).

(** The buffered [statusChan] made for the calls in [body]: a fresh
    status channel on which [arr] will arrive; the caller's own channel is
    back when [body] is over. *)
Definition make_chan {A : Type} (arr : list NodeResponse) (body : Go A) : Go A := λ s,
  let '(r, s') := body (mkState arr (trace s)) in
  (r, mkState (chan s) (trace s')).

(** The goroutine of an operation together with [return <-finishChan].  The
    body yields [Some r] where it does [finishChan <- r; return] and [None]
    where it returns without publishing; the deferred [recover()] publishes
    [unknown] after a panic.  With nothing published the caller never
    returns. *)
Definition go_finish {R : Type} (unknown : R) (body : Go (option R)) : Go R := λ s,
  match body s with
  | (Ret (Some r), s') => (Ret r, s')
  | (Ret None, s') => (Block, s')
  | (Panic, s') => (Ret unknown, s')
  | (Block, s') => (Block, s')
  end.

(** [for _, node := range nodes { node.op(..., ch) }] over a list. *)
Fixpoint dispatch_all (op : NodeOp) (reply : bool) (nodes : list (option Node)) : Go unit :=
  match nodes with
  | [] => mret tt
  | node :: rest => emit (Dispatch node op reply);; dispatch_all op reply rest
  end.

(** What one call of a replicated operation meets: the snapshot
    [GetHealthyNodes()] gives at entry, the responses its status channel
    delivers, and what [GetHealthyNodeCount()] gives once they are
    collected. *)
Record Env : Type := mkEnv {
  healthy : gmap string Node;
  arrivals : list NodeResponse;
  healthyAfter : nat
}.

Definition run {A : Type} (m : Go A) : Res A * list Event :=
  let '(r, s) := m (mkState [] []) in (r, trace s).

(** The asynchronous writes of a trace: each [node.Set(item, nil)], in the
    order issued. *)
Definition repairs (tr : list Event) : list (option Node * Item) :=
  omap (λ e, match e with
             | Dispatch n (OpSet it) false => Some (n, it)
             | _ => None
             end) tr.

(** The calls of a trace that publish to the status channel. *)
Definition contacted (tr : list Event) : list (option Node * NodeOp) :=
  omap (λ e, match e with
             | Dispatch n op true => Some (n, op)
             | _ => None
             end) tr.

Section Client.

(** Go leaves the order of [range] over a map unspecified: any order of the
    map's entries. *)
Variable range_nodes : gmap string Node → list (string * Node).
Variable range_values : gmap (option Node) Z → list (option Node * Z).
Hypothesis range_nodes_perm : ∀ m, range_nodes m ≡ₚ map_to_list m.
Hypothesis range_values_perm : ∀ m, range_values m ≡ₚ map_to_list m.

(** *** Client.Get *)

(** Lines 193-198: [for k := range nodes { if len(nodes) <= nodesToRead
    { break }; delete(nodes, k) }], [iter] being the keys still to visit.
    Only the key in hand is deleted, so every key of [iter] is visited. *)
Fixpoint Get_trim (nodesToRead : nat) (iter : list (string * Node))
    (nodes : gmap string Node) : gmap string Node :=
  match iter with
  | [] => nodes
  | (k, _) :: rest =>
      if size nodes <=? nodesToRead then nodes
      else Get_trim nodesToRead rest (delete k nodes)
  end.

(** Lines 227-235. *)
Fixpoint Get_collect (nodeCount : nat) (nodesToSync : list (option Node))
    (item : option Item) : Go (list (option Node) * option Item) :=
  match nodeCount with
  | O => mret (nodesToSync, item)
  | S n =>
      response ← recv;
      let nodesToSync :=
        if decide (resp_Error response = Some ErrCacheMiss)
        then nodesToSync ++ [resp_Node response] else nodesToSync in
      let item :=
        if decide (resp_Error response = None ∧ resp_Item response ≠ None)
        then resp_Item response else item in
      Get_collect n nodesToSync item
  end.

(** Lines 187-200: the snapshot cut down to Ceil(n/2) nodes when it has more
    than two. *)
Definition Get_reduce (nodes : gmap string Node) : gmap string Node :=
  let nodeCount := size nodes in
  if 2 <? nodeCount then
    let nodesToRead := nodeCount / 2 in
    let nodesToRead :=
      if nodesToRead * 2 <? nodeCount then nodesToRead + 1 else nodesToRead in
    Get_trim nodesToRead (range_nodes nodes) nodes
  else nodes.

Definition Client_Get (e : Env) (key : string) : Go (option Item * option error) :=
  let nodes := healthy e in
  let nodeCount := size nodes in
  if nodeCount =? 0 then mret (None, Some ErrNoHealthyNodes)
  else
    let nodes := Get_reduce nodes in
    let nodeCount := size nodes in
    make_chan (arrivals e) (
      dispatch_all (OpGet key) true ((λ kn, Some kn.2) <$> range_nodes nodes);;
      go_finish (None, Some ErrUnknown) (
        '(nodesToSync, item) ← Get_collect nodeCount [] None;
        match item with
        | Some it =>
            (if 0 <? length nodesToSync then
               emit (Log Info (match Expiration it with
                               | Some _ => "Get: Synchronising %d nodes with %s expiry"
                               | None => "Get: Synchronising %d nodes"
                               end));;
               dispatch_all (OpSet it) false nodesToSync
             else mret tt);;
            mret (Some (Some it, None))
        | None => mret (Some (None, Some ErrCacheMiss))
        end)).

(** *** Client.Add *)

(** Lines 79-88. *)
Fixpoint Add_collect (nodeCount : nat) (doSync : bool)
    (nodesToSync : list (option Node)) : Go (bool * list (option Node)) :=
  match nodeCount with
  | O => mret (doSync, nodesToSync)
  | S n =>
      response ← recv;
      let doSync :=
        if decide (resp_Error response = Some ErrNotStored) then true else doSync in
      let nodesToSync :=
        if decide (resp_Error response = None)
        then nodesToSync ++ [resp_Node response] else nodesToSync in
      Add_collect n doSync nodesToSync
  end.

(** [reread] is what the nested [client.Get(item.Key)] of line 95 meets.
    That call's result shadows [item]: [item.Expiration] on line 98 reads
    through the pointer [Get] returned. *)
Definition Client_Add (e reread : Env) (item : Item) : Go (option error) :=
  let nodes := healthy e in
  let nodeCount := size nodes in
  if nodeCount =? 0 then mret (Some ErrNoHealthyNodes)
  else
    make_chan (arrivals e) (
      dispatch_all (OpAdd item) true ((λ kn, Some kn.2) <$> range_nodes nodes);;
      go_finish (Some ErrUnknown) (
        '(doSync, nodesToSync) ← Add_collect nodeCount false [];
        if (doSync : bool) then
          (if 0 <? length nodesToSync then
             emit (Log Info "Add: Synchronising %d nodes");;
             '(item, err) ← Client_Get reread (Key item);
             match err return Go unit with
             | Some _ =>
                 match item with
                 | None => panic
                 | Some it =>
                     emit (Log Info (match Expiration it with
                                     | Some _ => "Add: Synchronising %d nodes with %s expiry"
                                     | None => "Add: Synchronising %d nodes"
                                     end));;
                     dispatch_all (OpSet it) false nodesToSync
                 end
             | None => mret tt
             end
           else mret tt);;
          mret (Some (Some ErrNotStored))
        else if healthyAfter e =? 0 then mret (Some (Some ErrNoHealthyNodes))
        else mret (Some None))).

(** *** Client.Set *)

(** Lines 156-159. *)
Fixpoint Set_collect (nodeCount : nat) : Go unit :=
  match nodeCount with
  | O => mret tt
  | S n => recv;; Set_collect n
  end.

Definition Client_Set (e : Env) (item : Item) : Go (option error) :=
  let nodes := healthy e in
  let nodeCount := size nodes in
  if nodeCount =? 0 then mret (Some ErrNoHealthyNodes)
  else
    make_chan (arrivals e) (
      dispatch_all (OpSet item) true ((λ kn, Some kn.2) <$> range_nodes nodes);;
      go_finish (Some ErrUnknown) (
        Set_collect nodeCount;;
        if healthyAfter e =? 0 then mret (Some (Some ErrNoHealthyNodes))
        else mret (Some None))).

(** *** Client.Increment *)

Record IncrementVars : Type := mkVars {
  nodesToSync : list (option Node);
  maxValue : option Z;
  maxNode : option Node;
  newValues : gmap (option Node) Z
}.

(** Lines 309-323. *)
Fixpoint Increment_collect (nodeCount : nat) (v : IncrementVars) : Go IncrementVars :=
  match nodeCount with
  | O => mret v
  | S n =>
      response ← recv;
      let v :=
        if decide (resp_Error response = Some ErrCacheMiss)
        then mkVars (nodesToSync v ++ [resp_Node response])
                    (maxValue v) (maxNode v) (newValues v)
        else v in
      let v :=
        if decide (resp_Error response = None) then
          if match maxValue v with
             | None => true
             | Some m => (m <? resp_NewValue response)%Z
             end
          then mkVars (nodesToSync v)
                      (Some (resp_NewValue response))
                      (resp_Node response)
                      (<[resp_Node response := resp_NewValue response]> (newValues v))
          else v
        else v in
      Increment_collect n v
  end.

(** Lines 332-336. *)
Fixpoint Increment_low (m : Z) (iter : list (option Node * Z))
    (nodesToSync : list (option Node)) : list (option Node) :=
  match iter with
  | [] => nodesToSync
  | (node, val) :: rest =>
      Increment_low m rest
        (if (val <? m)%Z then nodesToSync ++ [node] else nodesToSync)
  end.

Definition Client_Increment (e : Env) (key : string) (delta : Z) : Go (Z * option error) :=
  let nodes := healthy e in
  let nodeCount := size nodes in
  if nodeCount =? 0 then mret (0%Z, Some ErrNoHealthyNodes)
  else
    make_chan (arrivals e) (
      dispatch_all (OpIncrement key delta) true ((λ kn, Some kn.2) <$> range_nodes nodes);;
      go_finish (0%Z, Some ErrUnknown) (
        v ← Increment_collect nodeCount (mkVars [] None None ∅);
        match maxNode v with
        | None => mret (Some (0%Z, Some ErrCacheMiss))
        | Some _ =>
            match maxValue v with
            | None => panic
            | Some m =>
                let nodesToSync :=
                  Increment_low m (range_values (newValues v)) (nodesToSync v) in
                if 0 <? length nodesToSync then
                  emit (Dispatch (maxNode v) (OpGet key) true);;
                  response ← recv;
                  match resp_Error response with
                  | Some _ =>
                      emit (Log Error
                        "Increment: Error during sync, cannot read from lead node");;
                      mret None
                  | None =>
                      match resp_Item response with
                      | None => panic
                      | Some it =>
                          emit (Log Info
                            (match Expiration it with
                             | Some _ => "Increment: Synchronising %d nodes with %s expiry"
                             | None => "Increment: Synchronising %d nodes"
                             end));;
                          dispatch_all (OpSet it) false nodesToSync;;
                          mret (Some (m, None))
                      end
                  end
                else mret (Some (m, None))
            end
        end)).

(** *** Client.Delete and Client.Touch *)

(** Lines 401-406, and again 454-459. *)
Fixpoint Delete_collect (nodeCount : nat) (errToReturn : option error) : Go (option error) :=
  match nodeCount with
  | O => mret errToReturn
  | S n =>
      response ← recv;
      let errToReturn :=
        if decide (resp_Error response = Some ErrCacheMiss)
        then Some ErrCacheMiss else errToReturn in
      Delete_collect n errToReturn
  end.

Definition Client_Delete (e : Env) (key : string) : Go (option error) :=
  let nodes := healthy e in
  let nodeCount := size nodes in
  if size nodes =? 0 then mret (Some ErrNoHealthyNodes)
  else
    make_chan (arrivals e) (
      dispatch_all (OpDelete key) true ((λ kn, Some kn.2) <$> range_nodes nodes);;
      go_finish (Some ErrUnknown) (
        errToReturn ← Delete_collect nodeCount None;
        if healthyAfter e =? 0 then mret (Some (Some ErrNoHealthyNodes))
        else mret (Some errToReturn))).

Definition Client_Touch (e : Env) (key : string) (seconds : Z) : Go (option error) :=
  let nodes := healthy e in
  let nodeCount := size nodes in
  if size nodes =? 0 then mret (Some ErrNoHealthyNodes)
  else
    make_chan (arrivals e) (
      dispatch_all (OpTouch key seconds) true ((λ kn, Some kn.2) <$> range_nodes nodes);;
      go_finish (Some ErrUnknown) (
        errToReturn ← Delete_collect nodeCount None;
        if healthyAfter e =? 0 then mret (Some (Some ErrNoHealthyNodes))
        else mret (Some errToReturn))).

(** ** The supervisor: Client.GetNodes and Client.HealthCheck

    Both work on [client.Nodes.Nodes], the map of the NodeList, passed
    explicitly.  [probe n] is what [n.HealthCheck()] returns this round. *)
Variable probe : Node → bool * option error.

(** Modelled from the spec: [NodeList.Exists] and [NodeList.Add] are
    declared outside client.go; the NodeList maps an endpoint to its node. *)
Definition NodeList_Exists (Nodes : gmap string Node) (nodeAddr : string) : bool :=
  bool_decide (is_Some (Nodes !! nodeAddr)).

Definition NodeList_Add (Nodes : gmap string Node) (node : Node) : gmap string Node :=
  <[Endpoint node := node]> Nodes.

(** Modelled from the spec: [NewNode(log, endpoint, timeout)] is declared
    outside client.go. *)
Definition NewNode (nodeAddr : string) : Node := mkNode nodeAddr.

Record Membership : Type := mkMembership {
  Nodes : gmap string Node;
  incomingNodes : gmap string bool;
  calls : list Event
}.

(** Lines 549-563: the endpoints one source reports. *)
Fixpoint GetNodes_added (nodes : list string) (st : Membership) : Membership :=
  match nodes with
  | [] => st
  | nodeAddr :: rest =>
      let incoming := <[nodeAddr := true]> (incomingNodes st) in
      GetNodes_added rest
        (if negb (NodeList_Exists (Nodes st) nodeAddr) then
           let node := NewNode nodeAddr in
           let '(ok, err) := probe node in
           mkMembership (NodeList_Add (Nodes st) node) incoming
             (calls st
              ++ [Log Info "GetNodes: Node Added %s"; Probe node]
              ++ match err with
                 | Some _ =>
                     [Log Warn "GetNodes: Initial HealthCheck for Node %s returned an error: %s"]
                 | None => []
                 end
              ++ (if ok then []
                  else [Log Warn "GetNodes: Initial HealthCheck failed for Node %s"]))
         else mkMembership (Nodes st) incoming (calls st))
  end.

(** Lines 541-564.  A source answers [(nodes, err)]; the flag is [true] when
    a source returned an error and the function returned there. *)
Fixpoint GetNodes_sources (sources : list (list string * option error))
    (st : Membership) : bool * Membership :=
  match sources with
  | [] => (false, st)
  | (nodes, err) :: rest =>
      match err with
      | Some _ =>
          (true, mkMembership (Nodes st) (incomingNodes st)
                   (calls st ++ [Log Error "GetNodes: Source Error: %s"]))
      | None => GetNodes_sources rest (GetNodes_added nodes st)
      end
  end.

(** Lines 567-572. *)
Fixpoint GetNodes_removed (iter : list (string * Node)) (st : Membership) : Membership :=
  match iter with
  | [] => st
  | (nodeAddr, _) :: rest =>
      GetNodes_removed rest
        (match incomingNodes st !! nodeAddr with
         | Some _ => st
         | None =>
             mkMembership (delete nodeAddr (Nodes st)) (incomingNodes st)
               (calls st ++ [Log Info "GetNodes: Node Removed %s"])
         end)
  end.

Definition Client_GetNodes (sources : list (list string * option error))
    (nodes : gmap string Node) : gmap string Node * list Event :=
  let '(failed, st) := GetNodes_sources sources (mkMembership nodes ∅ []) in
  if failed then (Nodes st, calls st)
  else
    let st := GetNodes_removed (range_nodes (Nodes st)) st in
    (Nodes st, calls st).

(** Lines 577-583. *)
Fixpoint HealthCheck_loop (iter : list (string * Node)) (tr : list Event)
    : option error * list Event :=
  match iter with
  | [] => (None, tr)
  | (_, node) :: rest =>
      let '(_, err) := probe node in
      let tr := tr ++ [Probe node] in
      match err with
      | Some err => (Some err, tr)
      | None => HealthCheck_loop rest tr
      end
  end.

Definition Client_HealthCheck (nodes : gmap string Node) : option error * list Event :=
  HealthCheck_loop (range_nodes nodes) [].

End Client.

(** ** The collecting loops as folds

    Each loop [for ; nodeCount > 0; nodeCount--] reads [nodeCount] responses
    and updates its variables with one response at a time. *)

Fixpoint collect {A : Type} (step : A → NodeResponse → A) (nodeCount : nat) (acc : A) : Go A :=
  match nodeCount with
  | O => mret acc
  | S n => response ← recv; collect step n (step acc response)
  end.

Definition is_miss (r : NodeResponse) : Prop := resp_Error r = Some ErrCacheMiss.
Definition is_hit (r : NodeResponse) : Prop := resp_Error r = None ∧ resp_Item r ≠ None.

Global Instance is_miss_dec r : Decision (is_miss r).
Proof. unfold is_miss. apply _. Defined.
Global Instance is_hit_dec r : Decision (is_hit r).
Proof. unfold is_hit. apply _. Defined.

Definition Get_step (acc : list (option Node) * option Item) (response : NodeResponse)
    : list (option Node) * option Item :=
  (if decide (resp_Error response = Some ErrCacheMiss)
   then acc.1 ++ [resp_Node response] else acc.1,
   if decide (resp_Error response = None ∧ resp_Item response ≠ None)
   then resp_Item response else acc.2).

(** The calls [Client.Get] issues once it has read the responses. *)
Definition Get_sync (acc : list (option Node) * option Item) : list Event :=
  match acc.2 with
  | Some it =>
      if 0 <? length acc.1 then
        Log Info (match Expiration it with
                  | Some _ => "Get: Synchronising %d nodes with %s expiry"
                  | None => "Get: Synchronising %d nodes"
                  end)
        :: ((λ n, Dispatch n (OpSet it) false) <$> acc.1)
      else []
  | None => []
  end.

Definition Get_result (acc : list (option Node) * option Item) : option Item * option error :=
  match acc.2 with
  | Some it => (Some it, None)
  | None => (None, Some ErrCacheMiss)
  end.

Definition dispatches (op : NodeOp) (iter : list (string * Node)) : list Event :=
  (λ kn, Dispatch (Some kn.2) op true) <$> iter.

Definition Add_step (acc : bool * list (option Node)) (response : NodeResponse)
    : bool * list (option Node) :=
  (if decide (resp_Error response = Some ErrNotStored) then true else acc.1,
   if decide (resp_Error response = None)
   then acc.2 ++ [resp_Node response] else acc.2).

Definition Delete_step (errToReturn : option error) (response : NodeResponse) : option error :=
  if decide (resp_Error response = Some ErrCacheMiss)
  then Some ErrCacheMiss else errToReturn.

Definition Increment_step (v : IncrementVars) (response : NodeResponse) : IncrementVars :=
  let v :=
    if decide (resp_Error response = Some ErrCacheMiss)
    then mkVars (nodesToSync v ++ [resp_Node response])
                (maxValue v) (maxNode v) (newValues v)
    else v in
  if decide (resp_Error response = None) then
    if match maxValue v with
       | None => true
       | Some m => (m <? resp_NewValue response)%Z
       end
    then mkVars (nodesToSync v)
                (Some (resp_NewValue response))
                (resp_Node response)
                (<[resp_Node response := resp_NewValue response]> (newValues v))
    else v
  else v.

(** The largest of the values seen so far and one more. *)
Definition max_with (m : option Z) (x : Z) : option Z :=
  match m with
  | None => Some x
  | Some m => Some (Z.max m x)
  end.

Definition is_not_stored (r : NodeResponse) : Prop := resp_Error r = Some ErrNotStored.
Definition is_stored (r : NodeResponse) : Prop := resp_Error r = None.

Global Instance is_not_stored_dec r : Decision (is_not_stored r).
Proof. unfold is_not_stored. apply _. Defined.
Global Instance is_stored_dec r : Decision (is_stored r).
Proof. unfold is_stored. apply _. Defined.

(** Ceil(n/2). *)
Definition quorum (n : nat) : nat := (n + 1) / 2.

(** ** Scenarios

    Concrete clusters and answers on which the operations are run below.
    [range_fixed] and [values_fixed] visit a map in the order of its entry
    list, one of the orders Go may take. *)

Definition range_fixed (m : gmap string Node) : list (string * Node) := map_to_list m.
Definition values_fixed (m : gmap (option Node) Z) : list (option Node * Z) := map_to_list m.

Definition cluster (nodes : list Node) : gmap string Node :=
  list_to_map ((λ n, (Endpoint n, n)) <$> nodes).

Definition nodeA : Node := mkNode "a".
Definition nodeB : Node := mkNode "b".
Definition nodeC : Node := mkNode "c".
Definition nodeD : Node := mkNode "d".
Definition nodeE : Node := mkNode "e".

Definition item_old : Item := mkItem "x" "old" None.
Definition item_new : Item := mkItem "x" "new" None.
Definition item_ctr : Item := mkItem "ctr" "11" None.

(** What a node publishes: a nil error, an item, an error, a new value. *)
Definition stored (n : Node) : NodeResponse := NewNodeResponse (Some n) None None 0.
Definition found (n : Node) (it : Item) : NodeResponse :=
  NewNodeResponse (Some n) (Some it) None 0.
Definition failed (n : Node) (err : error) : NodeResponse :=
  NewNodeResponse (Some n) None (Some err) 0.
Definition counted (n : Node) (v : Z) : NodeResponse := NewNodeResponse (Some n) None None v.

Definition timeout : error := ErrOther "i/o timeout".

(** Every health check succeeds; the check of one node fails. *)
Definition probe_up (n : Node) : bool * option error := (true, None).
Definition probe_down (down : Node) (n : Node) : bool * option error :=
  if decide (n = down) then (false, Some timeout) else (true, None).

(** Three healthy nodes, of which [Get] reads two: one has the item, one
    misses. *)
Definition env_get_repair : Env :=
  mkEnv (cluster [nodeA; nodeB; nodeC])
        [found nodeA item_old; failed nodeB ErrCacheMiss] 3.

(** Five healthy nodes that all hold the item; [Get] reads three of them. *)
Definition env_get_five : Env :=
  mkEnv (cluster [nodeA; nodeB; nodeC; nodeD; nodeE])
        [found nodeA item_old; found nodeB item_old; found nodeD item_old] 5.

(** One node answers and is unhealthy by the time its answer is read. *)
Definition env_get_dead : Env := mkEnv (cluster [nodeA]) [found nodeA item_old] 0.
Definition env_incr_dead : Env := mkEnv (cluster [nodeA]) [counted nodeA 11] 0.

Definition env_delete_dead : Env :=
  mkEnv (cluster [nodeA; nodeB]) [failed nodeA ErrCacheMiss; stored nodeB] 0.

(** [Add] on two nodes: the key is on [nodeA] and was missing on [nodeB]. *)
Definition env_add_diverged : Env :=
  mkEnv (cluster [nodeA; nodeB]) [failed nodeA ErrNotStored; stored nodeB] 2.

(** The re-read of [Add]: both nodes answer, [nodeA] last.  In
    [env_all_failed] both nodes time out and are unhealthy afterwards. *)
Definition reread_ok : Env :=
  mkEnv (cluster [nodeA; nodeB]) [found nodeB item_new; found nodeA item_old] 2.
Definition env_all_failed : Env :=
  mkEnv (cluster [nodeA; nodeB]) [failed nodeA timeout; failed nodeB timeout] 0.

(** [Increment] on two nodes, the key missing on [nodeB]; the re-read from
    [nodeA] times out. *)
Definition env_incr_reread_failed : Env :=
  mkEnv (cluster [nodeA; nodeB])
        [counted nodeA 11; failed nodeB ErrCacheMiss; failed nodeA timeout] 2.

(** [Increment] on three nodes that answer 11, 11 and 10, in two arrival
    orders; the last response is the re-read. *)
Definition env_incr_high_first : Env :=
  mkEnv (cluster [nodeA; nodeB; nodeC])
        [counted nodeA 11; counted nodeB 11; counted nodeC 10; found nodeA item_ctr] 3.
Definition env_incr_low_first : Env :=
  mkEnv (cluster [nodeA; nodeB; nodeC])
        [counted nodeC 10; counted nodeA 11; counted nodeB 11; found nodeA item_ctr] 3.

(** A refresh round whose first source reports a new endpoint and whose
    second source fails. *)
Definition sources_second_fails : list (list string * option error) :=
  [(["a"; "d"], None); ([], Some timeout)].

(** ** Client.WaitForNodes and Client.runloop

    Instants and durations are integers (nanoseconds on one axis, the zero
    [time.Time] at 0); what [time.Now()] reads is an input. *)

(** Lines 487-494.  Each turn of the loop reads the clock and, when the
    deadline is not passed, the healthy count: [polls] lists what the turns
    read, and the result is [None] when the loop outlasts them. *)
Fixpoint WaitForNodes (deadline : Z) (polls : list (Z * nat)) : option (option error) :=
  match polls with
  | [] => None
  | (now, healthyCount) :: rest =>
      if (deadline <? now)%Z then Some (Some ErrNoHealthyNodes)
      else if 0 <? healthyCount then Some None
      else WaitForNodes deadline rest
  end.

(** What one firing of the timer meets: the clock on line 510, the answers of
    the sources and of the first health checks during [GetNodes], the clock
    on line 514, the answers of the health checks during [HealthCheck], the
    clock on line 522. *)
Record Tick : Type := mkTick {
  now : Z;
  sources : list (list string * option error);
  probe_added : Node → bool * option error;
  now_refreshed : Z;
  probe_check : Node → bool * option error;
  now_checked : Z
}.

Record Loop : Type := mkLoop {
  loop_Nodes : gmap string Node;
  lastGetNodes : Z;
  lastHealthCheck : Z;
  running : bool;
  loop_calls : list Event
}.

Inductive LoopEvent : Type :=
  | Timer (t : Tick)
  | Shutdown.

Section Supervisor.

Variable range_nodes : gmap string Node → list (string * Node).

(** The package variables of lines 15 and 17. *)
Variable GET_NODES_PERIOD : Z.
Variable HEALTHCHECK_PERIOD : Z.

(** Lines 510-525. *)
Definition runloop_tick (t : Tick) (st : Loop) : Loop :=
  let st :=
    if (lastGetNodes st + GET_NODES_PERIOD <? now t)%Z then
      let '(nodes, calls) :=
        Client_GetNodes range_nodes (probe_added t) (sources t) (loop_Nodes st) in
      mkLoop nodes (now_refreshed t) (lastHealthCheck st) (running st)
             (loop_calls st ++ calls)
    else st in
  if (lastHealthCheck st + HEALTHCHECK_PERIOD <? now t)%Z then
    let '(err, calls) := Client_HealthCheck range_nodes (probe_check t) (loop_Nodes st) in
    mkLoop (loop_Nodes st) (lastGetNodes st) (now_checked t) (running st)
           (loop_calls st ++ calls
            ++ match err with
               | Some _ => [Log Warn "HealthCheck returned an error: %s"]
               | None => []
               end)
  else st.

(** Lines 507-533: the [select] takes the events in the order they come. *)
Fixpoint runloop_events (events : list LoopEvent) (st : Loop) : Loop :=
  match events with
  | [] => st
  | Timer t :: rest => runloop_events rest (runloop_tick t st)
  | Shutdown :: _ =>
      mkLoop (loop_Nodes st) (lastGetNodes st) (lastHealthCheck st) false
             (loop_calls st ++ [Log Info "Stopped"])
  end.

(** Lines 501-505, then the loop. *)
Definition runloop (events : list LoopEvent) (nodes : gmap string Node) : Loop :=
  runloop_events events (mkLoop nodes 0 0 true [Log Info "Running"]).

End Supervisor.

(** A clock that moves on by [step] at least from one poll to the next. *)
Definition advancing (step : Z) (polls : list (Z * nat)) : Prop :=
  ∀ i p q, polls !! i = Some p → polls !! S i = Some q → (p.1 + step ≤ q.1)%Z.

(** The nodes of a trace whose health was checked, in order. *)
Definition probes (tr : list Event) : list Node :=
  omap (λ e, match e with Probe n => Some n | _ => None end) tr.

(** The endpoints a round's sources report. *)
Definition reported (sources : list (list string * option error)) : gset string :=
  list_to_set (mjoin sources.*1).

(** More scenarios. *)

(** No healthy node at entry. *)
Definition env_empty : Env := mkEnv ∅ [found nodeA item_old] 2.

(** Two healthy nodes, one response. *)
Definition env_one_response : Env := mkEnv (cluster [nodeA; nodeB]) [stored nodeA] 2.

(** Every node answers an error and one is healthy afterwards. *)
Definition env_errors : Env :=
  mkEnv (cluster [nodeA; nodeB]) [failed nodeA timeout; failed nodeB ErrNotStored] 1.

Definition env_delete_miss : Env :=
  mkEnv (cluster [nodeA; nodeB]) [failed nodeA ErrCacheMiss; stored nodeB] 1.

(** [Add]: the key is on no node ([nodeB] timed out); the key is on both. *)
Definition env_add_absent : Env :=
  mkEnv (cluster [nodeA; nodeB]) [stored nodeA; failed nodeB timeout] 2.
Definition env_add_present : Env :=
  mkEnv (cluster [nodeA; nodeB]) [failed nodeA ErrNotStored; failed nodeB ErrNotStored] 0.

(** [Increment]: two nodes answer 11, one times out. *)
Definition env_incr_agree : Env :=
  mkEnv (cluster [nodeA; nodeB; nodeC])
        [counted nodeA 11; failed nodeB timeout; counted nodeC 11] 3.

(** A refresh round whose sources both answer. *)
Definition sources_ok : list (list string * option error) :=
  [(["a"; "d"], None); (["d"], None)].

(** A firing of the timer twenty seconds after the zero instant, with the
    default periods of ten and five seconds. *)
Definition tick_first : Tick :=
  mkTick 20000000000 sources_ok probe_up 20000000001 probe_up 20000000002.
Definition period_get_nodes : Z := 10000000000.
Definition period_healthcheck : Z := 5000000000.

(** Polls a hundred nanoseconds apart; in the first list the third poll
    sees a healthy node. *)
Definition polls_healthy : list (Z * nat) := [(0%Z, 0); (100%Z, 0); (200%Z, 1); (300%Z, 1)].
Definition polls_unhealthy : list (Z * nat) := [(0%Z, 0); (100%Z, 0); (200%Z, 0); (300%Z, 0)].

Section ClientFacts.

Variable range_nodes : gmap string Node → list (string * Node).
Variable range_values : gmap (option Node) Z → list (option Node * Z).
Hypothesis range_nodes_perm : ∀ m, range_nodes m ≡ₚ map_to_list m.
Hypothesis range_values_perm : ∀ m, range_values m ≡ₚ map_to_list m.
Variable probe : Node → bool * option error.

#[local] Set Default Proof Using "Type".

(** *** The monad's operations *)

Lemma dispatch_all_run op reply nodes s :
  dispatch_all op reply nodes s
  = (Ret tt, mkState (chan s) (trace s ++ ((λ n, Dispatch n op reply) <$> nodes))).
Proof.
  revert s. induction nodes as [|n nodes IH]; intros [ch tr]; simpl.
  - by rewrite app_nil_r.
  - unfold mbind, Go_bind, emit; simpl. rewrite IH; simpl.
    by rewrite <- app_assoc.
Qed.

Lemma collect_run {A} (step : A → NodeResponse → A) n acc s :
  n ≤ length (chan s) →
  collect step n acc s
  = (Ret (foldl step acc (take n (chan s))), mkState (drop n (chan s)) (trace s)).
Proof.
  revert acc s. induction n as [|n IH]; intros acc [ch tr] Hn; simpl in *.
  - by rewrite drop_0.
  - destruct ch as [|r ch]; simpl in *; [lia|].
    unfold mbind, Go_bind, recv; simpl. rewrite IH by (simpl; lia). done.
Qed.

Lemma collect_block {A} (step : A → NodeResponse → A) n acc s :
  length (chan s) < n →
  collect step n acc s = (Block, mkState [] (trace s)).
Proof.
  revert acc s. induction n as [|n IH]; intros acc [ch tr] Hn; simpl in *; [lia|].
  destruct ch as [|r ch]; simpl in *.
  - done.
  - unfold mbind, Go_bind, recv; simpl. rewrite IH by (simpl; lia). done.
Qed.

Lemma Get_collect_fold n nts item s :
  Get_collect n nts item s = collect Get_step n (nts, item) s.
Proof.
  revert nts item s. induction n as [|n IH]; intros nts item s; simpl; [done|].
  unfold mbind, Go_bind, recv. destruct (chan s); [done|]. by rewrite IH.
Qed.

(** *** The quorum cut of Client.Get *)

Lemma quorum_nodesToRead n :
  (if n / 2 * 2 <? n then n / 2 + 1 else n / 2) = quorum n.
Proof.
  unfold quorum.
  pose proof (Nat.div_mod_eq n 2). pose proof (Nat.mod_upper_bound n 2).
  pose proof (Nat.div_mod_eq (n + 1) 2). pose proof (Nat.mod_upper_bound (n + 1) 2).
  destruct (Nat.ltb_spec (n / 2 * 2) n); lia.
Qed.

Lemma quorum_lt n : 2 < n → 0 < quorum n < n.
Proof.
  unfold quorum. intros Hn.
  pose proof (Nat.div_mod_eq (n + 1) 2). pose proof (Nat.mod_upper_bound (n + 1) 2).
  lia.
Qed.

Lemma Get_trim_subseteq k iter (nodes : gmap string Node) :
  Get_trim k iter nodes ⊆ nodes.
Proof.
  revert nodes. induction iter as [|[key n] iter IH]; intros nodes; simpl; [done|].
  destruct (size nodes <=? k); [done|].
  etrans; [apply IH|apply delete_subseteq].
Qed.

Lemma Get_trim_size k iter (nodes : gmap string Node) :
  NoDup iter.*1 →
  (∀ key, key ∈ iter.*1 → is_Some (nodes !! key)) →
  size (Get_trim k iter nodes)
  = if size nodes <=? k then size nodes else k `max` (size nodes - length iter).
Proof.
  revert nodes. induction iter as [|[key n] iter IH]; intros nodes Hnd Hin; simpl.
  - destruct (Nat.leb_spec (size nodes) k); lia.
  - destruct (Nat.leb_spec (size nodes) k) as [|Hlt]; [done|].
    apply NoDup_cons in Hnd as [Hkey Hnd]. simpl in *.
    assert (size (delete key nodes) = pred (size nodes)) as Hsz.
    { apply map_size_delete_Some, Hin. left. }
    rewrite IH; [|done|].
    + rewrite Hsz. destruct (Nat.leb_spec (pred (size nodes)) k); lia.
    + intros key' Hkey'. rewrite lookup_delete_ne; [apply Hin; by right|].
      intros ->. done.
Qed.

Lemma Get_reduce_subseteq nodes : Get_reduce range_nodes nodes ⊆ nodes.
Proof.
  unfold Get_reduce. destruct (2 <? size nodes); [apply Get_trim_subseteq|done].
Qed.

Lemma Get_reduce_size nodes :
  size (Get_reduce range_nodes nodes)
  = if 2 <? size nodes then quorum (size nodes) else size nodes.
Proof using range_nodes_perm.
  unfold Get_reduce. destruct (Nat.ltb_spec 2 (size nodes)) as [Hn|]; [|done].
  rewrite quorum_nodesToRead, Get_trim_size.
  - rewrite (Permutation_length (range_nodes_perm nodes)), length_map_to_list.
    pose proof (quorum_lt _ Hn).
    destruct (Nat.leb_spec (size nodes) (quorum (size nodes))); lia.
  - rewrite (range_nodes_perm nodes). apply NoDup_fst_map_to_list.
  - intros key. rewrite (range_nodes_perm nodes).
    intros [[k n] [-> Hkn]]%list_elem_of_fmap. simpl.
    apply elem_of_map_to_list in Hkn. eauto.
Qed.

(** *** Client.Get, run *)

Lemma Client_Get_empty e key s :
  size (healthy e) = 0 →
  Client_Get range_nodes e key s = (Ret (None, Some ErrNoHealthyNodes), s).
Proof. intros H0. unfold Client_Get. by rewrite H0. Qed.

Lemma Client_Get_run e key s :
  size (healthy e) ≠ 0 →
  size (Get_reduce range_nodes (healthy e)) ≤ length (arrivals e) →
  Client_Get range_nodes e key s
  = (Ret (Get_result (foldl Get_step ([], None)
            (take (size (Get_reduce range_nodes (healthy e))) (arrivals e)))),
     mkState (chan s)
       (trace s
        ++ dispatches (OpGet key) (range_nodes (Get_reduce range_nodes (healthy e)))
        ++ Get_sync (foldl Get_step ([], None)
             (take (size (Get_reduce range_nodes (healthy e))) (arrivals e))))).
Proof.
  intros H0 Hlen. unfold Client_Get.
  destruct (Nat.eqb_spec (size (healthy e)) 0) as [|_]; [done|].
  unfold make_chan, go_finish, mbind, Go_bind.
  rewrite dispatch_all_run. simpl.
  rewrite Get_collect_fold, collect_run by done. simpl.
  unfold Get_result, Get_sync, dispatches.
  destruct (foldl _ _ _) as [nts [it|]]; simpl.
  - destruct (0 <? length nts); simpl.
    + unfold emit; simpl. rewrite dispatch_all_run; simpl.
      rewrite <- list_fmap_compose. by rewrite <- !app_assoc.
    + unfold mret, Go_ret. by rewrite <- list_fmap_compose, app_nil_r.
  - unfold mret, Go_ret. by rewrite <- list_fmap_compose, app_nil_r.
Qed.

Lemma Client_Get_blocked e key s :
  length (arrivals e) < size (Get_reduce range_nodes (healthy e)) →
  Client_Get range_nodes e key s
  = (Block,
     mkState (chan s)
       (trace s
        ++ dispatches (OpGet key) (range_nodes (Get_reduce range_nodes (healthy e))))).
Proof.
  intros Hlen. unfold Client_Get.
  destruct (Nat.eqb_spec (size (healthy e)) 0) as [H0|_].
  { unfold Get_reduce in Hlen. rewrite H0 in Hlen. simpl in Hlen. lia. }
  unfold make_chan, go_finish, mbind, Go_bind.
  rewrite dispatch_all_run. simpl.
  rewrite Get_collect_fold, collect_block by done. simpl.
  unfold dispatches. by rewrite <- list_fmap_compose.
Qed.

Lemma Get_fold_sync rs acc :
  (foldl Get_step acc rs).1 = acc.1 ++ (resp_Node <$> filter is_miss rs).
Proof.
  revert acc. induction rs as [|r rs IH]; intros acc; simpl.
  - by rewrite app_nil_r.
  - rewrite IH. unfold Get_step; simpl. rewrite filter_cons. unfold is_miss at 2.
    destruct (decide (resp_Error r = Some ErrCacheMiss)); simpl; [|done].
    by rewrite <- app_assoc.
Qed.

Lemma Get_fold_item_none rs acc :
  (∀ r, r ∈ rs → ¬ is_hit r) →
  (foldl Get_step acc rs).2 = acc.2.
Proof.
  revert acc. induction rs as [|r rs IH]; intros acc Hno; simpl; [done|].
  rewrite IH.
  - unfold Get_step; simpl. destruct (decide _) as [Hhit|]; [|done].
    destruct (Hno r); [left|done].
  - intros r' Hr'. apply Hno. by right.
Qed.

Lemma Get_fold_item_some rs acc :
  (∃ r, r ∈ rs ∧ is_hit r) →
  ∃ r it, r ∈ rs ∧ is_hit r ∧ resp_Item r = Some it
          ∧ (foldl Get_step acc rs).2 = Some it.
Proof.
  induction rs as [|r rs IH] using rev_ind; intros (r0 & Hin & Hhit).
  { by apply elem_of_nil in Hin. }
  rewrite foldl_app; simpl. unfold Get_step at 1; simpl.
  destruct (decide _) as [Hr|Hr].
  - assert (is_hit r) as Hh by exact Hr.
    destruct (resp_Item r) as [it|] eqn:Hit; [|by destruct Hr].
    exists r, it. split; [apply elem_of_app; right; left|]. by split.
  - apply elem_of_app in Hin as [Hin|Hin%list_elem_of_singleton].
    + destruct IH as (r1 & it & ? & ? & ? & ?); [by eauto|].
      exists r1, it. split; [apply elem_of_app; by left|]. by split.
    + subst r0. done.
Qed.

Lemma contacted_app tr1 tr2 : contacted (tr1 ++ tr2) = contacted tr1 ++ contacted tr2.
Proof. apply omap_app. Qed.

Lemma repairs_app tr1 tr2 : repairs (tr1 ++ tr2) = repairs tr1 ++ repairs tr2.
Proof. apply omap_app. Qed.

Lemma contacted_dispatches op iter :
  contacted (dispatches op iter) = (λ kn, (Some kn.2, op)) <$> iter.
Proof.
  unfold contacted, dispatches.
  induction iter as [|kn iter IH]; simpl; [done|]. by f_equal.
Qed.

Lemma repairs_dispatches op iter : repairs (dispatches op iter) = [].
Proof.
  unfold repairs, dispatches.
  induction iter as [|kn iter IH]; simpl; [done|]. by destruct op.
Qed.

Lemma contacted_async it nodes :
  contacted ((λ n, Dispatch n (OpSet it) false) <$> nodes) = [].
Proof. by induction nodes. Qed.

Lemma repairs_async it nodes :
  repairs ((λ n, Dispatch n (OpSet it) false) <$> nodes) = (λ n, (n, it)) <$> nodes.
Proof.
  unfold repairs. induction nodes as [|n nodes IH]; simpl; [done|]. by f_equal.
Qed.

Lemma contacted_Get_sync acc : contacted (Get_sync acc) = [].
Proof.
  unfold Get_sync. destruct (acc.2); [|done].
  destruct (0 <? _); [|done]. simpl. apply contacted_async.
Qed.

Lemma repairs_Get_sync nts it :
  repairs (Get_sync (nts, Some it)) = (λ n, (n, it)) <$> nts.
Proof.
  unfold Get_sync; simpl. destruct nts as [|n nts]; [done|].
  change (0 <? length (n :: nts)) with true. cbv iota.
  change (repairs (Log ?l ?f :: ?tr)) with (repairs tr).
  apply repairs_async.
Qed.

(** C7: a [Get] that reached its nodes and read their responses returns
    [ErrCacheMiss] when none of them carries an item; when one does, it
    returns an item some node returned and sends [Set(item, nil)] to every
    node that answered [ErrCacheMiss], and to no other. *)
Theorem Client_Get_miss_or_read_repair (e : Env) (key : string) :
  let rs := take (size (Get_reduce range_nodes (healthy e))) (arrivals e) in
  size (healthy e) ≠ 0 →
  size (Get_reduce range_nodes (healthy e)) ≤ length (arrivals e) →
  ((∀ r, r ∈ rs → ¬ is_hit r) →
     (run (Client_Get range_nodes e key)).1 = Ret (None, Some ErrCacheMiss)
     ∧ repairs (run (Client_Get range_nodes e key)).2 = [])
  ∧ ((∃ r, r ∈ rs ∧ is_hit r) →
     ∃ r it, r ∈ rs ∧ is_hit r ∧ resp_Item r = Some it
       ∧ (run (Client_Get range_nodes e key)).1 = Ret (Some it, None)
       ∧ repairs (run (Client_Get range_nodes e key)).2
         = (λ m, (resp_Node m, it)) <$> filter is_miss rs).
Proof.
  intros rs H0 Hlen. unfold run.
  rewrite (Client_Get_run e key (mkState [] []) H0 Hlen). fold rs. simpl.
  split.
  - intros Hno. pose proof (Get_fold_item_none rs ([], None) Hno) as Hitem.
    unfold Get_result, Get_sync. rewrite Hitem.
    split; [done|]. by rewrite app_nil_r, repairs_dispatches.
  - intros Hsome.
    destruct (Get_fold_item_some rs ([], None) Hsome) as (r & it & Hin & Hhit & Hit & Hfold).
    exists r, it. split_and!; [done..| |].
    + unfold Get_result. by rewrite Hfold.
    + pose proof (Get_fold_sync rs ([], None)) as Hsync.
      destruct (foldl Get_step ([], None) rs) as [nts item]. simpl in *. subst.
      rewrite repairs_app, repairs_dispatches, repairs_Get_sync. simpl.
      by rewrite <- list_fmap_compose.
Qed.

(** C8: [Get] dispatches to a part [R] of the healthy snapshot [H], each of
    its nodes once: Ceil(|H|/2) nodes when |H| > 2, and all of [H]
    otherwise. *)
Theorem Client_Get_quorum_dispatch (e : Env) (key : string) :
  ∃ R : gmap string Node,
    R ⊆ healthy e
    ∧ size R = (if 2 <? size (healthy e) then quorum (size (healthy e))
                else size (healthy e))
    ∧ (size (healthy e) ≤ 2 → R = healthy e)
    ∧ contacted (run (Client_Get range_nodes e key)).2
      ≡ₚ (λ kn, (Some kn.2, OpGet key)) <$> map_to_list R.
Proof using range_nodes_perm.
  exists (Get_reduce range_nodes (healthy e)). split_and!.
  - apply Get_reduce_subseteq.
  - apply Get_reduce_size.
  - intros Hle. unfold Get_reduce.
    destruct (Nat.ltb_spec 2 (size (healthy e))); [lia|done].
  - unfold run.
    destruct (decide (size (healthy e) = 0)) as [H0|H0].
    { rewrite Client_Get_empty by done. simpl.
      unfold Get_reduce. rewrite H0. simpl.
      apply map_size_empty_iff in H0. rewrite H0. by rewrite map_to_list_empty. }
    destruct (decide (size (Get_reduce range_nodes (healthy e)) ≤ length (arrivals e))).
    + rewrite Client_Get_run by done. simpl.
      rewrite contacted_app, contacted_dispatches, contacted_Get_sync, app_nil_r.
      by rewrite (range_nodes_perm _).
    + rewrite Client_Get_blocked by lia. simpl.
      rewrite contacted_dispatches. by rewrite (range_nodes_perm _).
Qed.

(** *** The terminal check of Set, Add, Delete and Touch *)

Lemma Set_collect_fold n s : Set_collect n s = collect (λ _ _, tt) n tt s.
Proof.
  revert s. induction n as [|n IH]; intros s; simpl; [done|].
  unfold mbind, Go_bind, recv. destruct (chan s); [done|]. by rewrite IH.
Qed.

Lemma Add_collect_fold n doSync nts s :
  Add_collect n doSync nts s = collect Add_step n (doSync, nts) s.
Proof.
  revert doSync nts s. induction n as [|n IH]; intros doSync nts s; simpl; [done|].
  unfold mbind, Go_bind, recv. destruct (chan s); [done|]. by rewrite IH.
Qed.

Lemma Delete_collect_fold n err s :
  Delete_collect n err s = collect Delete_step n err s.
Proof.
  revert err s. induction n as [|n IH]; intros err s; simpl; [done|].
  unfold mbind, Go_bind, recv. destruct (chan s); [done|]. by rewrite IH.
Qed.

Lemma Add_fold_doSync rs acc :
  (∀ r, r ∈ rs → resp_Error r ≠ Some ErrNotStored) →
  (foldl Add_step acc rs).1 = acc.1.
Proof.
  revert acc. induction rs as [|r rs IH]; intros acc Hno; simpl; [done|].
  rewrite IH.
  - unfold Add_step; simpl. destruct (decide _) as [Heq|]; [|done].
    destruct (Hno r); [left|done].
  - intros r' Hr'. apply Hno. by right.
Qed.

Lemma Delete_fold_miss rs err :
  foldl Delete_step err rs
  = if decide (Exists is_miss rs) then Some ErrCacheMiss else err.
Proof.
  revert err. induction rs as [|r rs IH]; intros err; cbn [foldl].
  - destruct (decide (Exists is_miss [])) as [Hex|]; [by apply Exists_nil in Hex|done].
  - rewrite IH. unfold Delete_step.
    destruct (decide (Exists is_miss (r :: rs))) as [Hex|Hex].
    + destruct (decide (Exists is_miss rs)); [done|].
      apply Exists_cons in Hex as [Hr|?]; [|done]. by rewrite decide_True.
    + rewrite (decide_False (P:=Exists is_miss rs)).
      * rewrite decide_False; [done|]. intros ?. apply Hex. by left.
      * intros ?. apply Hex. by right.
Qed.

Lemma Client_Set_run e item s :
  size (healthy e) ≠ 0 →
  size (healthy e) ≤ length (arrivals e) →
  Client_Set range_nodes e item s
  = (Ret (if healthyAfter e =? 0 then Some ErrNoHealthyNodes else None),
     mkState (chan s) (trace s ++ dispatches (OpSet item) (range_nodes (healthy e)))).
Proof.
  intros H0 Hlen. unfold Client_Set.
  destruct (Nat.eqb_spec (size (healthy e)) 0) as [|_]; [done|].
  unfold make_chan, go_finish, mbind, Go_bind.
  rewrite dispatch_all_run. simpl.
  rewrite Set_collect_fold, collect_run by done. simpl.
  unfold dispatches. rewrite <- list_fmap_compose.
  by destruct (healthyAfter e =? 0).
Qed.

Lemma Client_Delete_run e key s :
  size (healthy e) ≠ 0 →
  size (healthy e) ≤ length (arrivals e) →
  Client_Delete range_nodes e key s
  = (Ret (if healthyAfter e =? 0 then Some ErrNoHealthyNodes
          else foldl Delete_step None (take (size (healthy e)) (arrivals e))),
     mkState (chan s) (trace s ++ dispatches (OpDelete key) (range_nodes (healthy e)))).
Proof.
  intros H0 Hlen. unfold Client_Delete.
  destruct (Nat.eqb_spec (size (healthy e)) 0) as [|_]; [done|].
  unfold make_chan, go_finish, mbind, Go_bind.
  rewrite dispatch_all_run. simpl.
  rewrite Delete_collect_fold, collect_run by done. simpl.
  unfold dispatches. rewrite <- list_fmap_compose.
  by destruct (healthyAfter e =? 0).
Qed.

Lemma Client_Touch_run e key seconds s :
  size (healthy e) ≠ 0 →
  size (healthy e) ≤ length (arrivals e) →
  Client_Touch range_nodes e key seconds s
  = (Ret (if healthyAfter e =? 0 then Some ErrNoHealthyNodes
          else foldl Delete_step None (take (size (healthy e)) (arrivals e))),
     mkState (chan s)
       (trace s ++ dispatches (OpTouch key seconds) (range_nodes (healthy e)))).
Proof.
  intros H0 Hlen. unfold Client_Touch.
  destruct (Nat.eqb_spec (size (healthy e)) 0) as [|_]; [done|].
  unfold make_chan, go_finish, mbind, Go_bind.
  rewrite dispatch_all_run. simpl.
  rewrite Delete_collect_fold, collect_run by done. simpl.
  unfold dispatches. rewrite <- list_fmap_compose.
  by destruct (healthyAfter e =? 0).
Qed.

Lemma Client_Add_run_absent e reread item s :
  size (healthy e) ≠ 0 →
  size (healthy e) ≤ length (arrivals e) →
  (∀ r, r ∈ take (size (healthy e)) (arrivals e) → resp_Error r ≠ Some ErrNotStored) →
  Client_Add range_nodes e reread item s
  = (Ret (if healthyAfter e =? 0 then Some ErrNoHealthyNodes else None),
     mkState (chan s) (trace s ++ dispatches (OpAdd item) (range_nodes (healthy e)))).
Proof.
  intros H0 Hlen Hno. unfold Client_Add.
  destruct (Nat.eqb_spec (size (healthy e)) 0) as [|_]; [done|].
  unfold make_chan, go_finish, mbind, Go_bind.
  rewrite dispatch_all_run. simpl.
  rewrite Add_collect_fold, collect_run by done. simpl.
  pose proof (Add_fold_doSync _ (false, []) Hno) as HdoSync.
  destruct (foldl Add_step _ _) as [doSync nts]. simpl in HdoSync. subst doSync.
  unfold dispatches. rewrite <- list_fmap_compose.
  by destruct (healthyAfter e =? 0).
Qed.

(** C10: with no healthy node left once the responses are in, [Delete] and
    [Touch] return [ErrNoHealthyNodes] whatever the nodes answered, a
    reported [ErrCacheMiss] included. *)
Theorem Delete_Touch_no_healthy_nodes_first (e : Env) (key : string) (seconds : Z) :
  healthyAfter e = 0 →
  size (healthy e) ≤ length (arrivals e) →
  (run (Client_Delete range_nodes e key)).1 = Ret (Some ErrNoHealthyNodes)
  ∧ (run (Client_Touch range_nodes e key seconds)).1 = Ret (Some ErrNoHealthyNodes).
Proof.
  intros Hafter Hlen. unfold run.
  destruct (decide (size (healthy e) = 0)) as [H0|H0].
  - unfold Client_Delete, Client_Touch. by rewrite H0.
  - rewrite Client_Delete_run, Client_Touch_run by done. by rewrite Hafter.
Qed.

(** With a healthy node left, the same calls surface a reported miss. *)
Lemma Delete_Touch_surface_miss (e : Env) (key : string) (seconds : Z) :
  healthyAfter e ≠ 0 →
  size (healthy e) ≠ 0 →
  size (healthy e) ≤ length (arrivals e) →
  Exists is_miss (take (size (healthy e)) (arrivals e)) →
  (run (Client_Delete range_nodes e key)).1 = Ret (Some ErrCacheMiss)
  ∧ (run (Client_Touch range_nodes e key seconds)).1 = Ret (Some ErrCacheMiss).
Proof.
  intros Hafter H0 Hlen Hmiss. unfold run.
  rewrite Client_Delete_run, Client_Touch_run by done. simpl.
  destruct (Nat.eqb_spec (healthyAfter e) 0); [done|].
  by rewrite Delete_fold_miss, decide_True.
Qed.

(** C4, as the code has it: [Set], [Add], [Delete] and [Touch] look at
    [GetHealthyNodeCount()] once the responses are in and return
    [ErrNoHealthyNodes] where they would have returned nil ([Delete] and
    [Touch] also where they would have returned [ErrCacheMiss]); [Get] and
    [Increment] never look at it, their outcome is the same whatever the
    count is. *)
Theorem terminal_check_of_writes (e reread : Env) (item : Item) (key : string)
    (delta seconds : Z) :
  healthyAfter e = 0 →
  size (healthy e) ≤ length (arrivals e) →
  (run (Client_Set range_nodes e item)).1 = Ret (Some ErrNoHealthyNodes)
  ∧ ((∀ r, r ∈ take (size (healthy e)) (arrivals e)
           → resp_Error r ≠ Some ErrNotStored) →
     (run (Client_Add range_nodes e reread item)).1 = Ret (Some ErrNoHealthyNodes))
  ∧ (run (Client_Delete range_nodes e key)).1 = Ret (Some ErrNoHealthyNodes)
  ∧ (run (Client_Touch range_nodes e key seconds)).1 = Ret (Some ErrNoHealthyNodes)
  ∧ (∀ n, run (Client_Get range_nodes (mkEnv (healthy e) (arrivals e) n) key)
          = run (Client_Get range_nodes e key))
  ∧ (∀ n, run (Client_Increment range_nodes range_values
                 (mkEnv (healthy e) (arrivals e) n) key delta)
          = run (Client_Increment range_nodes range_values e key delta)).
Proof.
  intros Hafter Hlen.
  destruct (decide (size (healthy e) = 0)) as [H0|H0].
  - unfold run, Client_Set, Client_Add, Client_Delete, Client_Touch.
    rewrite H0. simpl. split_and!; done.
  - split_and!; [| | | |done|done].
    + unfold run. rewrite Client_Set_run by done. by rewrite Hafter.
    + intros Hno. unfold run. rewrite Client_Add_run_absent by done. by rewrite Hafter.
    + unfold run. rewrite Client_Delete_run by done. by rewrite Hafter.
    + unfold run. rewrite Client_Touch_run by done. by rewrite Hafter.
Qed.

(** *** Client.Add when the nodes disagree *)

(** An error from [Get] never comes with an item. *)
Lemma Client_Get_error_nil_item e key s item err s' :
  Client_Get range_nodes e key s = (Ret (item, Some err), s') → item = None.
Proof.
  destruct (decide (size (healthy e) = 0)) as [H0|H0].
  { rewrite Client_Get_empty by done. by intros [= <- _ _]. }
  destruct (decide (size (Get_reduce range_nodes (healthy e)) ≤ length (arrivals e))).
  - rewrite Client_Get_run by done. unfold Get_result.
    destruct (foldl _ _ _).2; by intros [= <- _ _].
  - rewrite Client_Get_blocked by lia. done.
Qed.

Lemma Client_Get_never_panics e key s s' :
  Client_Get range_nodes e key s ≠ (Panic, s').
Proof.
  destruct (decide (size (healthy e) = 0)) as [H0|H0].
  { by rewrite Client_Get_empty. }
  destruct (decide (size (Get_reduce range_nodes (healthy e)) ≤ length (arrivals e))).
  - by rewrite Client_Get_run.
  - by rewrite Client_Get_blocked by lia.
Qed.

(** [Get] appends its calls to the trace and leaves the caller's channel. *)
Lemma Client_Get_frame e key s :
  Client_Get range_nodes e key s
  = ((run (Client_Get range_nodes e key)).1,
     mkState (chan s) (trace s ++ (run (Client_Get range_nodes e key)).2)).
Proof.
  unfold run.
  destruct (decide (size (healthy e) = 0)) as [H0|H0].
  { rewrite !Client_Get_empty by done. simpl. rewrite app_nil_r. by destruct s. }
  destruct (decide (size (Get_reduce range_nodes (healthy e)) ≤ length (arrivals e))).
  - by rewrite !Client_Get_run by done.
  - by rewrite !Client_Get_blocked by lia.
Qed.

Lemma Add_fold_doSync_true rs acc :
  Exists is_not_stored rs → (foldl Add_step acc rs).1 = true.
Proof.
  induction rs as [|r rs IH] using rev_ind; intros Hex.
  { by apply Exists_nil in Hex. }
  rewrite foldl_app; simpl.
  destruct (decide (resp_Error r = Some ErrNotStored)) as [|Hr]; [done|].
  apply IH. apply Exists_app in Hex as [|Hex]; [done|].
  apply Exists_cons in Hex as [|Hex]; [done|]. by apply Exists_nil in Hex.
Qed.

Lemma Add_fold_nodes rs acc :
  (foldl Add_step acc rs).2 = acc.2 ++ (resp_Node <$> filter is_stored rs).
Proof.
  revert acc. induction rs as [|r rs IH]; intros acc; simpl.
  - by rewrite app_nil_r.
  - rewrite IH. unfold Add_step; simpl. rewrite filter_cons. unfold is_stored at 2.
    destruct (decide (resp_Error r = None)); simpl; [|done].
    by rewrite <- app_assoc.
Qed.

(** Some node answered [ErrNotStored] and some node stored the item: [Add]
    logs, re-reads, and sends nothing more.  It returns [ErrNotStored] when
    the re-read gives no error and [ErrUnknown] when it gives one. *)
Lemma Client_Add_diverged e reread item :
  size (healthy e) ≠ 0 →
  size (healthy e) ≤ length (arrivals e) →
  Exists is_not_stored (take (size (healthy e)) (arrivals e)) →
  Exists is_stored (take (size (healthy e)) (arrivals e)) →
  run (Client_Add range_nodes e reread item)
  = (match (run (Client_Get range_nodes reread (Key item))).1 with
     | Ret (_, None) => Ret (Some ErrNotStored)
     | Ret (_, Some _) => Ret (Some ErrUnknown)
     | _ => Block
     end,
     dispatches (OpAdd item) (range_nodes (healthy e))
     ++ [Log Info "Add: Synchronising %d nodes"]
     ++ (run (Client_Get range_nodes reread (Key item))).2).
Proof.
  intros H0 Hlen HM HA. unfold run at 1, Client_Add.
  destruct (Nat.eqb_spec (size (healthy e)) 0) as [|_]; [done|].
  unfold make_chan, go_finish, mbind, Go_bind.
  rewrite dispatch_all_run. simpl.
  rewrite Add_collect_fold, collect_run by done. simpl.
  pose proof (Add_fold_doSync_true _ (false, []) HM) as HdoSync.
  pose proof (Add_fold_nodes (take (size (healthy e)) (arrivals e)) (false, [])) as Hnodes.
  destruct (foldl Add_step _ _) as [doSync nts]. simpl in HdoSync, Hnodes. subst doSync.
  assert ((0 <? length nts) = true) as ->.
  { apply Nat.ltb_lt. rewrite Hnodes.
    apply Exists_exists in HA as (r & Hr & Hst).
    assert (resp_Node r ∈ resp_Node <$> filter is_stored (take (size (healthy e)) (arrivals e)))
      as Hin by (apply list_elem_of_fmap_2, list_elem_of_filter; done).
    destruct (resp_Node <$> filter is_stored _); [by apply elem_of_nil in Hin|simpl; lia]. }
  rewrite Client_Get_frame. simpl.
  unfold dispatches. rewrite <- list_fmap_compose.
  pose proof (Client_Get_error_nil_item reread (Key item) (mkState [] [])) as Hnil.
  pose proof (Client_Get_never_panics reread (Key item) (mkState [] [])) as Hpanic.
  unfold run in *. destruct (Client_Get range_nodes reread (Key item) _) as [[[got err]| |] sg];
    simpl in *.
  - destruct err as [err|]; simpl.
    + rewrite (Hnil got err sg eq_refl). simpl. by rewrite <- !app_assoc.
    + by rewrite <- !app_assoc.
  - by destruct (Hpanic sg).
  - by rewrite <- !app_assoc.
Qed.

(** *** Client.Increment *)

Lemma Increment_collect_fold n v s :
  Increment_collect n v s = collect Increment_step n v s.
Proof.
  revert v s. induction n as [|n IH]; intros v s; simpl; [done|].
  unfold mbind, Go_bind, recv. destruct (chan s); [done|]. by rewrite IH.
Qed.

(** [maxValue] is the largest [NewValue] among the responses with a nil
    error. *)
Lemma Increment_fold_max rs v :
  maxValue (foldl Increment_step v rs)
  = foldl max_with (maxValue v) (resp_NewValue <$> filter is_stored rs).
Proof.
  revert v. induction rs as [|r rs IH]; intros v; simpl; [done|].
  rewrite IH, filter_cons. unfold Increment_step.
  repeat case_decide; unfold is_stored in *; try congruence; simpl; try done.
  destruct (maxValue v) as [m|] eqn:Hmv; simpl; [|done].
  destruct (Z.ltb_spec m (resp_NewValue r)); simpl; [|rewrite Hmv];
    do 2 f_equal; lia.
Qed.

(** The misses are on the sync list in arrival order. *)
Lemma Increment_fold_misses rs v :
  nodesToSync (foldl Increment_step v rs)
  = nodesToSync v ++ (resp_Node <$> filter is_miss rs).
Proof.
  revert v. induction rs as [|r rs IH]; intros v; simpl.
  - by rewrite app_nil_r.
  - rewrite IH, filter_cons. unfold Increment_step.
    repeat case_decide; unfold is_miss in *; try congruence; simpl.
    + by destruct (match maxValue v with Some m => _ | None => _ end).
    + by rewrite <- app_assoc.
Qed.

Lemma Increment_low_filter m iter nts :
  Increment_low m iter nts
  = nts ++ (fst <$> filter (λ nv : option Node * Z, (nv.2 < m)%Z) iter).
Proof.
  revert nts. induction iter as [|[n val] iter IH]; intros nts; simpl.
  - by rewrite app_nil_r.
  - rewrite IH, filter_cons. simpl.
    destruct (Z.ltb_spec val m).
    + rewrite decide_True by done. simpl. by rewrite <- app_assoc.
    + rewrite decide_False by lia. done.
Qed.

(** The nodes lines 332-336 add are the nodes recorded in [newValues] with a
    value below the maximum, in whatever order the map is visited. *)
Lemma Increment_low_range (m : Z) (recorded : gmap (option Node) Z)
    (nts : list (option Node)) :
  Increment_low m (range_values recorded) nts
  ≡ₚ nts ++ (fst <$> filter (λ nv : option Node * Z, (nv.2 < m)%Z) (map_to_list recorded)).
Proof using range_values_perm.
  rewrite Increment_low_filter. by rewrite (range_values_perm recorded).
Qed.

(** [Increment] once the fan-out is read and some node gave a value: with
    nothing to repair it returns the maximum; otherwise it re-reads from the
    lead node, and returns only when that read gives no error. *)
Lemma Client_Increment_run e key delta mn m :
  size (healthy e) ≠ 0 →
  size (healthy e) ≤ length (arrivals e) →
  let v := foldl Increment_step (mkVars [] None None ∅)
             (take (size (healthy e)) (arrivals e)) in
  let nts := Increment_low m (range_values (newValues v)) (nodesToSync v) in
  maxNode v = Some mn →
  maxValue v = Some m →
  run (Client_Increment range_nodes range_values e key delta)
  = if 0 <? length nts then
      match drop (size (healthy e)) (arrivals e) with
      | [] =>
          (Block,
           dispatches (OpIncrement key delta) (range_nodes (healthy e))
           ++ [Dispatch (Some mn) (OpGet key) true])
      | response :: _ =>
          match resp_Error response, resp_Item response with
          | Some _, _ =>
              (Block,
               dispatches (OpIncrement key delta) (range_nodes (healthy e))
               ++ [Dispatch (Some mn) (OpGet key) true;
                   Log Error "Increment: Error during sync, cannot read from lead node"])
          | None, None =>
              (Ret (0%Z, Some ErrUnknown),
               dispatches (OpIncrement key delta) (range_nodes (healthy e))
               ++ [Dispatch (Some mn) (OpGet key) true])
          | None, Some it =>
              (Ret (m, None),
               dispatches (OpIncrement key delta) (range_nodes (healthy e))
               ++ [Dispatch (Some mn) (OpGet key) true;
                   Log Info (match Expiration it with
                             | Some _ => "Increment: Synchronising %d nodes with %s expiry"
                             | None => "Increment: Synchronising %d nodes"
                             end)]
               ++ ((λ n, Dispatch n (OpSet it) false) <$> nts))
          end
      end
    else (Ret (m, None), dispatches (OpIncrement key delta) (range_nodes (healthy e))).
Proof.
  intros H0 Hlen v nts Hmn Hm. subst v nts. unfold run, Client_Increment.
  destruct (Nat.eqb_spec (size (healthy e)) 0) as [|_]; [done|].
  unfold make_chan, go_finish, mbind, Go_bind.
  rewrite dispatch_all_run.
  cbn [chan trace app].
  rewrite Increment_collect_fold, collect_run by done.
  cbn [chan trace]. rewrite Hmn, Hm.
  unfold dispatches. rewrite <- list_fmap_compose.
  destruct (0 <? length _); [|done].
  unfold emit, recv; cbn [chan trace].
  destruct (drop (size (healthy e)) (arrivals e)) as [|response rest]; [done|].
  destruct (resp_Error response).
  { unfold mret, Go_ret. cbn [chan trace fst snd]. by rewrite <- app_assoc. }
  destruct (resp_Item response) as [it|]; [|done].
  rewrite dispatch_all_run. unfold mret, Go_ret. cbn [chan trace fst snd].
  by rewrite <- !app_assoc.
Qed.

(** *** Client.GetNodes *)

Lemma GetNodes_added_lookup nodes st k n :
  Nodes st !! k = Some n →
  Nodes (GetNodes_added probe nodes st) !! k = Some n.
Proof.
  revert st. induction nodes as [|nodeAddr nodes IH]; intros st Hk; simpl; [done|].
  apply IH. unfold NodeList_Exists, NodeList_Add, NewNode.
  case_bool_decide as Hex; simpl; [done|].
  destruct (probe _) as [ok err]; simpl.
  rewrite lookup_insert_ne; [done|].
  intros ->. apply Hex. eauto.
Qed.

Lemma GetNodes_added_dom nodes st :
  dom (Nodes (GetNodes_added probe nodes st)) = dom (Nodes st) ∪ list_to_set nodes.
Proof.
  clear range_nodes_perm range_values_perm.
  revert st. induction nodes as [|nodeAddr nodes IH]; intros st; simpl.
  - set_solver.
  - rewrite IH. unfold NodeList_Exists, NodeList_Add, NewNode.
    case_bool_decide as Hex; simpl.
    + apply elem_of_dom in Hex. set_solver.
    + destruct (probe _) as [ok err]; simpl. rewrite dom_insert_L. set_solver.
Qed.

Lemma GetNodes_sources_abort pre nodes err post st :
  Forall (λ src : list string * option error, src.2 = None) pre →
  ∃ st', GetNodes_sources probe (pre ++ (nodes, Some err) :: post) st = (true, st')
         ∧ Nodes st ⊆ Nodes st'
         ∧ dom (Nodes st') = dom (Nodes st) ∪ list_to_set (mjoin pre.*1).
Proof.
  clear range_nodes_perm range_values_perm.
  intros Hpre. revert st.
  induction Hpre as [|[ns e] pre He Hpre IH]; intros st; simpl in *.
  - eexists; split; [done|]. simpl. split; [done|set_solver].
  - subst e. destruct (IH (GetNodes_added probe ns st)) as (st' & -> & Hsub & Hdom).
    exists st'. split; [done|]. split.
    + etrans; [|exact Hsub]. apply map_subseteq_spec.
      intros k n. apply GetNodes_added_lookup.
    + rewrite Hdom, GetNodes_added_dom, list_to_set_app_L. set_solver.
Qed.

(** C5, as the code has it: when a source returns an error the round ends
    there with no node removed, wherever the failing source stands; the
    endpoints the sources before it reported are in the NodeList by then, so
    the NodeList is unchanged only when they reported nothing new, as when
    the failing source is the first one. *)
Theorem GetNodes_source_error_keeps_additions
    (pre post : list (list string * option error)) (nodes : list string) (err : error)
    (nodeList : gmap string Node) :
  Forall (λ src : list string * option error, src.2 = None) pre →
  let nodeList' :=
    (Client_GetNodes range_nodes probe (pre ++ (nodes, Some err) :: post) nodeList).1 in
  nodeList ⊆ nodeList'
  ∧ dom nodeList' = dom nodeList ∪ list_to_set (mjoin pre.*1)
  ∧ (list_to_set (mjoin pre.*1) ⊆ dom nodeList → nodeList' = nodeList)
  ∧ (pre = [] → nodeList' = nodeList).
Proof.
  clear range_nodes_perm range_values_perm.
  intros Hpre. unfold Client_GetNodes.
  destruct (GetNodes_sources_abort pre nodes err post (mkMembership nodeList ∅ []) Hpre)
    as (st' & Heq & Hsub & Hdom).
  rewrite Heq. simpl in *. split_and!; [done..| |].
  - intros Hold. symmetry. apply subseteq_dom_eq; [done|]. set_solver.
  - intros ->. simpl in Heq. by inversion Heq.
Qed.

(** *** Client.HealthCheck *)

Lemma HealthCheck_loop_all iter tr :
  Forall (λ kn : string * Node, (probe kn.2).2 = None) iter →
  HealthCheck_loop probe iter tr = (None, tr ++ (Probe ∘ snd <$> iter)).
Proof.
  intros Hok. revert tr. induction Hok as [|[k n] iter Hn Hok IH]; intros tr; simpl in *.
  - by rewrite app_nil_r.
  - destruct (probe n) as [ok err]; simpl in *. subst err.
    rewrite IH. by rewrite <- app_assoc.
Qed.

Lemma HealthCheck_loop_stops pre k n err post tr :
  Forall (λ kn : string * Node, (probe kn.2).2 = None) pre →
  (probe n).2 = Some err →
  HealthCheck_loop probe (pre ++ (k, n) :: post) tr
  = (Some err, tr ++ (Probe ∘ snd <$> pre) ++ [Probe n]).
Proof.
  intros Hok Hn. revert tr. induction Hok as [|[k' n'] pre Hn' Hok IH]; intros tr; simpl in *.
  - destruct (probe n) as [ok e]; simpl in *. by subst e.
  - destruct (probe n') as [ok e]; simpl in *. subst e.
    rewrite IH. by rewrite <- app_assoc.
Qed.

(** ** Further properties of the replicated operations *)

Lemma Client_Set_blocked e item s :
  length (arrivals e) < size (healthy e) →
  Client_Set range_nodes e item s
  = (Block, mkState (chan s) (trace s ++ dispatches (OpSet item) (range_nodes (healthy e)))).
Proof.
  intros Hlen. unfold Client_Set.
  destruct (Nat.eqb_spec (size (healthy e)) 0) as [H0|_]; [lia|].
  unfold make_chan, go_finish, mbind, Go_bind.
  rewrite dispatch_all_run. simpl.
  rewrite Set_collect_fold, collect_block by done. simpl.
  unfold dispatches. by rewrite <- list_fmap_compose.
Qed.

Lemma Client_Add_blocked e reread item s :
  length (arrivals e) < size (healthy e) →
  Client_Add range_nodes e reread item s
  = (Block, mkState (chan s) (trace s ++ dispatches (OpAdd item) (range_nodes (healthy e)))).
Proof.
  intros Hlen. unfold Client_Add.
  destruct (Nat.eqb_spec (size (healthy e)) 0) as [H0|_]; [lia|].
  unfold make_chan, go_finish, mbind, Go_bind.
  rewrite dispatch_all_run. simpl.
  rewrite Add_collect_fold, collect_block by done. simpl.
  unfold dispatches. by rewrite <- list_fmap_compose.
Qed.

Lemma Client_Increment_blocked e key delta s :
  length (arrivals e) < size (healthy e) →
  Client_Increment range_nodes range_values e key delta s
  = (Block,
     mkState (chan s)
       (trace s ++ dispatches (OpIncrement key delta) (range_nodes (healthy e)))).
Proof.
  intros Hlen. unfold Client_Increment.
  destruct (Nat.eqb_spec (size (healthy e)) 0) as [H0|_]; [lia|].
  unfold make_chan, go_finish, mbind, Go_bind.
  rewrite dispatch_all_run. simpl.
  rewrite Increment_collect_fold, collect_block by done. simpl.
  unfold dispatches. by rewrite <- list_fmap_compose.
Qed.

Lemma Client_Delete_blocked e key s :
  length (arrivals e) < size (healthy e) →
  Client_Delete range_nodes e key s
  = (Block, mkState (chan s) (trace s ++ dispatches (OpDelete key) (range_nodes (healthy e)))).
Proof.
  intros Hlen. unfold Client_Delete.
  destruct (Nat.eqb_spec (size (healthy e)) 0) as [H0|_]; [lia|].
  unfold make_chan, go_finish, mbind, Go_bind.
  rewrite dispatch_all_run. simpl.
  rewrite Delete_collect_fold, collect_block by done. simpl.
  unfold dispatches. by rewrite <- list_fmap_compose.
Qed.

Lemma Client_Touch_blocked e key seconds s :
  length (arrivals e) < size (healthy e) →
  Client_Touch range_nodes e key seconds s
  = (Block,
     mkState (chan s) (trace s ++ dispatches (OpTouch key seconds) (range_nodes (healthy e)))).
Proof.
  intros Hlen. unfold Client_Touch.
  destruct (Nat.eqb_spec (size (healthy e)) 0) as [H0|_]; [lia|].
  unfold make_chan, go_finish, mbind, Go_bind.
  rewrite dispatch_all_run. simpl.
  rewrite Delete_collect_fold, collect_block by done. simpl.
  unfold dispatches. by rewrite <- list_fmap_compose.
Qed.

Lemma contacted_dispatches_all op (nodes : gmap string Node) :
  contacted (dispatches op (range_nodes nodes))
  ≡ₚ (λ kn, (Some kn.2, op)) <$> map_to_list nodes.
Proof using range_nodes_perm.
  rewrite contacted_dispatches. by rewrite (range_nodes_perm nodes).
Qed.

(** X1: with no healthy node at entry every replicated operation returns
    [ErrNoHealthyNodes] at once: no node is called, nothing is logged. *)
Theorem empty_snapshot_fails_fast (e reread : Env) (item : Item) (key : string)
    (delta seconds : Z) :
  healthy e = ∅ →
  run (Client_Add range_nodes e reread item) = (Ret (Some ErrNoHealthyNodes), [])
  ∧ run (Client_Set range_nodes e item) = (Ret (Some ErrNoHealthyNodes), [])
  ∧ run (Client_Get range_nodes e key) = (Ret (None, Some ErrNoHealthyNodes), [])
  ∧ run (Client_Increment range_nodes range_values e key delta)
    = (Ret (0%Z, Some ErrNoHealthyNodes), [])
  ∧ run (Client_Delete range_nodes e key) = (Ret (Some ErrNoHealthyNodes), [])
  ∧ run (Client_Touch range_nodes e key seconds) = (Ret (Some ErrNoHealthyNodes), []).
Proof.
  intros Hempty.
  assert (size (healthy e) = 0) as H0 by (by rewrite Hempty, map_size_empty).
  unfold run, Client_Add, Client_Set, Client_Get, Client_Increment, Client_Delete,
    Client_Touch.
  rewrite H0. simpl. by split_and!.
Qed.

(** X2: an operation waits for one response per node it called.  When fewer
    arrive it never returns, having sent the operation to every node of the
    snapshot ([Get]: of the reduced snapshot) and nothing else. *)
Theorem missing_response_blocks (e reread : Env) (item : Item) (key : string)
    (delta seconds : Z) :
  (length (arrivals e) < size (healthy e) →
     run (Client_Add range_nodes e reread item)
     = (Block, dispatches (OpAdd item) (range_nodes (healthy e)))
     ∧ run (Client_Set range_nodes e item)
       = (Block, dispatches (OpSet item) (range_nodes (healthy e)))
     ∧ run (Client_Increment range_nodes range_values e key delta)
       = (Block, dispatches (OpIncrement key delta) (range_nodes (healthy e)))
     ∧ run (Client_Delete range_nodes e key)
       = (Block, dispatches (OpDelete key) (range_nodes (healthy e)))
     ∧ run (Client_Touch range_nodes e key seconds)
       = (Block, dispatches (OpTouch key seconds) (range_nodes (healthy e))))
  ∧ (length (arrivals e) < size (Get_reduce range_nodes (healthy e)) →
     run (Client_Get range_nodes e key)
     = (Block, dispatches (OpGet key) (range_nodes (Get_reduce range_nodes (healthy e))))).
Proof.
  split.
  - intros Hlen. unfold run.
    rewrite Client_Add_blocked, Client_Set_blocked, Client_Increment_blocked,
      Client_Delete_blocked, Client_Touch_blocked by done.
    by split_and!.
  - intros Hlen. unfold run. by rewrite Client_Get_blocked.
Qed.

(** X3: [Set] does not look at what the nodes answer.  Once every node of the
    snapshot has answered it returns nil when a healthy node is left and
    [ErrNoHealthyNodes] otherwise; each node of the snapshot was sent the
    item once and no repair is written. *)
Theorem Set_ignores_node_outcomes (e : Env) (item : Item) :
  size (healthy e) ≠ 0 →
  size (healthy e) ≤ length (arrivals e) →
  (run (Client_Set range_nodes e item)).1
  = Ret (if healthyAfter e =? 0 then Some ErrNoHealthyNodes else None)
  ∧ contacted (run (Client_Set range_nodes e item)).2
    ≡ₚ (λ kn, (Some kn.2, OpSet item)) <$> map_to_list (healthy e)
  ∧ repairs (run (Client_Set range_nodes e item)).2 = [].
Proof using range_nodes_perm.
  intros H0 Hlen. unfold run. rewrite Client_Set_run by done. simpl.
  split_and!; [done| |apply repairs_dispatches].
  apply contacted_dispatches_all.
Qed.

(** X4: with a healthy node left, [Delete] and [Touch] return [ErrCacheMiss]
    when some node answered [ErrCacheMiss] and nil otherwise, whatever other
    errors the nodes answered; they write no repair. *)
Theorem Delete_Touch_miss_iff_reported (e : Env) (key : string) (seconds : Z) :
  size (healthy e) ≠ 0 →
  size (healthy e) ≤ length (arrivals e) →
  healthyAfter e ≠ 0 →
  let result :=
    if decide (Exists is_miss (take (size (healthy e)) (arrivals e)))
    then Some ErrCacheMiss else None in
  run (Client_Delete range_nodes e key)
  = (Ret result, dispatches (OpDelete key) (range_nodes (healthy e)))
  ∧ run (Client_Touch range_nodes e key seconds)
    = (Ret result, dispatches (OpTouch key seconds) (range_nodes (healthy e)))
  ∧ repairs (run (Client_Delete range_nodes e key)).2 = []
  ∧ repairs (run (Client_Touch range_nodes e key seconds)).2 = [].
Proof.
  intros H0 Hlen Hafter result. unfold run.
  rewrite Client_Delete_run, Client_Touch_run by done. simpl.
  destruct (Nat.eqb_spec (healthyAfter e) 0); [done|].
  rewrite Delete_fold_miss, !repairs_dispatches. by split_and!.
Qed.

Lemma filter_none {A} (P : A → Prop) `{∀ x, Decision (P x)} (l : list A) :
  Forall (λ x, ¬ P x) l → filter P l = [].
Proof.
  induction 1 as [|x l Hx Hl IH]; [done|].
  rewrite filter_cons. by rewrite decide_False.
Qed.

Lemma Client_Add_run_present e reread item s :
  size (healthy e) ≠ 0 →
  size (healthy e) ≤ length (arrivals e) →
  Exists is_not_stored (take (size (healthy e)) (arrivals e)) →
  Forall (λ r, ¬ is_stored r) (take (size (healthy e)) (arrivals e)) →
  Client_Add range_nodes e reread item s
  = (Ret (Some ErrNotStored),
     mkState (chan s) (trace s ++ dispatches (OpAdd item) (range_nodes (healthy e)))).
Proof.
  intros H0 Hlen HM HA. unfold Client_Add.
  destruct (Nat.eqb_spec (size (healthy e)) 0) as [|_]; [done|].
  unfold make_chan, go_finish, mbind, Go_bind.
  rewrite dispatch_all_run. simpl.
  rewrite Add_collect_fold, collect_run by done. simpl.
  pose proof (Add_fold_doSync_true _ (false, []) HM) as HdoSync.
  pose proof (Add_fold_nodes (take (size (healthy e)) (arrivals e)) (false, [])) as Hnodes.
  rewrite (filter_none _ _ HA) in Hnodes.
  destruct (foldl Add_step _ _) as [doSync nts]. simpl in HdoSync, Hnodes. subst doSync nts.
  simpl. unfold dispatches. by rewrite <- list_fmap_compose.
Qed.

(** X5: when the nodes agree, [Add] neither re-reads nor repairs.  If no node
    answers [ErrNotStored] it returns nil ([ErrNoHealthyNodes] when no
    healthy node is left); if some node answers [ErrNotStored] and none
    answers nil it returns [ErrNotStored], whatever the healthy count is. *)
Theorem Add_agreeing_nodes (e reread : Env) (item : Item) :
  size (healthy e) ≠ 0 →
  size (healthy e) ≤ length (arrivals e) →
  (Forall (λ r, ¬ is_not_stored r) (take (size (healthy e)) (arrivals e)) →
     run (Client_Add range_nodes e reread item)
     = (Ret (if healthyAfter e =? 0 then Some ErrNoHealthyNodes else None),
        dispatches (OpAdd item) (range_nodes (healthy e))))
  ∧ (Exists is_not_stored (take (size (healthy e)) (arrivals e)) →
     Forall (λ r, ¬ is_stored r) (take (size (healthy e)) (arrivals e)) →
     run (Client_Add range_nodes e reread item)
     = (Ret (Some ErrNotStored), dispatches (OpAdd item) (range_nodes (healthy e)))).
Proof.
  intros H0 Hlen. split.
  - intros Hno. unfold run. rewrite Client_Add_run_absent; [done..|].
    intros r Hr. by apply (proj1 (Forall_forall _ _) Hno).
  - intros HM HA. unfold run. by rewrite Client_Add_run_present.
Qed.

(** X6: [Add] writes no repair of its own.  Every [Set(item, nil)] of an
    [Add] is one its nested [Get] wrote as read-repair. *)
Theorem Add_writes_no_repair_itself (e reread : Env) (item : Item) :
  repairs (run (Client_Add range_nodes e reread item)).2 = []
  ∨ repairs (run (Client_Add range_nodes e reread item)).2
    = repairs (run (Client_Get range_nodes reread (Key item))).2.
Proof.
  destruct (decide (size (healthy e) = 0)) as [H0|H0].
  { left. unfold run, Client_Add. by rewrite H0. }
  destruct (decide (size (healthy e) ≤ length (arrivals e))) as [Hlen|Hlen].
  2:{ left. unfold run. rewrite Client_Add_blocked by lia. apply repairs_dispatches. }
  destruct (decide (Exists is_not_stored (take (size (healthy e)) (arrivals e))))
    as [HM|HM].
  - destruct (decide (Exists is_stored (take (size (healthy e)) (arrivals e))))
      as [HA|HA].
    + right. rewrite Client_Add_diverged by done. simpl.
      by rewrite !repairs_app, repairs_dispatches.
    + left. apply not_Exists_Forall in HA; [|apply _].
      unfold run. rewrite Client_Add_run_present by done. apply repairs_dispatches.
  - left. apply not_Exists_Forall in HM; [|apply _].
    unfold run. rewrite Client_Add_run_absent; [apply repairs_dispatches|done..|].
    intros r Hr. by apply (proj1 (Forall_forall _ _) HM).
Qed.

Lemma Get_fold_item_last pre r post acc :
  is_hit r → Forall (λ r', ¬ is_hit r') post →
  (foldl Get_step acc (pre ++ r :: post)).2 = resp_Item r.
Proof.
  intros Hhit Hpost. rewrite foldl_app. simpl.
  rewrite Get_fold_item_none.
  - unfold Get_step; simpl. by rewrite decide_True.
  - intros r' Hr'. by apply (proj1 (Forall_forall _ _) Hpost).
Qed.

(** X7: when several contacted nodes return an item, [Get] returns the item
    of the response that arrived last. *)
Theorem Get_returns_last_hit (e : Env) (key : string) pre r post it :
  size (healthy e) ≠ 0 →
  size (Get_reduce range_nodes (healthy e)) ≤ length (arrivals e) →
  take (size (Get_reduce range_nodes (healthy e))) (arrivals e) = pre ++ r :: post →
  is_hit r →
  resp_Item r = Some it →
  Forall (λ r', ¬ is_hit r') post →
  (run (Client_Get range_nodes e key)).1 = Ret (Some it, None).
Proof.
  intros H0 Hlen Hrs Hhit Hit Hpost. unfold run.
  rewrite Client_Get_run by done. simpl. rewrite Hrs.
  unfold Get_result. by rewrite Get_fold_item_last, Hit.
Qed.

(** X8: [Get] returns an item with a nil error, or no item with
    [ErrCacheMiss] or [ErrNoHealthyNodes], or it never returns: it never
    returns [ErrUnknown] or an error a node answered.  Every repair it
    writes carries the item it returns. *)
Theorem Get_outcomes (e : Env) (key : string) :
  ((run (Client_Get range_nodes e key)).1 = Block
   ∨ (run (Client_Get range_nodes e key)).1 = Ret (None, Some ErrNoHealthyNodes)
   ∨ (run (Client_Get range_nodes e key)).1 = Ret (None, Some ErrCacheMiss)
   ∨ ∃ it, (run (Client_Get range_nodes e key)).1 = Ret (Some it, None))
  ∧ ∀ n it, (n, it) ∈ repairs (run (Client_Get range_nodes e key)).2 →
            (run (Client_Get range_nodes e key)).1 = Ret (Some it, None).
Proof.
  unfold run.
  destruct (decide (size (healthy e) = 0)) as [H0|H0].
  { rewrite Client_Get_empty by done. simpl. split; [by right; left|].
    intros n it Hin. by apply elem_of_nil in Hin. }
  destruct (decide (size (Get_reduce range_nodes (healthy e)) ≤ length (arrivals e)))
    as [Hlen|Hlen].
  - rewrite Client_Get_run by done. simpl.
    unfold Get_result.
    destruct (foldl Get_step _ _) as [nts [it|]] eqn:Hfold; simpl.
    + split; [by right; right; right; exists it|].
      intros n it'. rewrite repairs_app, repairs_dispatches, repairs_Get_sync. simpl.
      by intros (n' & [= _ <-] & _)%list_elem_of_fmap.
    + split; [by right; right; left|].
      intros n it'. rewrite repairs_app, repairs_dispatches. simpl.
      intros Hin. by apply elem_of_nil in Hin.
  - rewrite Client_Get_blocked by lia. simpl. split; [by left|].
    intros n it. rewrite repairs_dispatches. intros Hin. by apply elem_of_nil in Hin.
Qed.

(** *** Client.Increment: the value returned and the nodes repaired *)

Lemma max_with_from_Some m l :
  ∃ M, foldl max_with (Some m) l = Some M
       ∧ (M = m ∨ M ∈ l) ∧ (m ≤ M)%Z ∧ Forall (λ x, (x ≤ M)%Z) l.
Proof.
  revert m. induction l as [|x l IH]; intros m; simpl.
  - exists m. split_and!; [done|by left|lia|constructor].
  - destruct (IH (Z.max m x)) as (M & -> & Hin & Hle & Hall).
    exists M. split_and!; [done| |lia|].
    + destruct Hin as [->|Hin]; [|right; by right].
      destruct (Z.max_spec m x) as [[_ ->]|[_ ->]]; [right; left|by left].
    + constructor; [lia|done].
Qed.

Lemma max_with_from_None l M :
  foldl max_with None l = Some M → M ∈ l ∧ Forall (λ x, (x ≤ M)%Z) l.
Proof.
  destruct l as [|x l]; simpl; [done|].
  destruct (max_with_from_Some x l) as (M' & -> & Hin & Hle & Hall).
  intros [= ->]. split.
  - destruct Hin as [->|Hin]; [left|by right].
  - by constructor.
Qed.

Lemma max_with_nonempty x l : foldl max_with None (x :: l) ≠ None.
Proof. simpl. by destruct (max_with_from_Some x l) as (M & -> & _). Qed.

Lemma Increment_fold_no_value rs v :
  Forall (λ r, ¬ is_stored r) rs →
  maxNode (foldl Increment_step v rs) = maxNode v.
Proof.
  intros Hno. revert v. induction Hno as [|r rs Hr Hno IH]; intros v; simpl; [done|].
  rewrite IH. unfold Increment_step.
  repeat case_decide; unfold is_stored in *; try done.
Qed.

Lemma Increment_fold_lead rs v :
  Forall (λ r, is_stored r → resp_Node r ≠ None) rs →
  (maxValue v ≠ None → maxNode v ≠ None) →
  maxValue (foldl Increment_step v rs) ≠ None →
  maxNode (foldl Increment_step v rs) ≠ None.
Proof.
  intros Hnodes. revert v. induction Hnodes as [|r rs Hr Hnodes IH]; intros v Hv; simpl;
    [done|].
  apply IH. unfold Increment_step.
  repeat case_decide; unfold is_stored in *; simpl; try done.
  all: destruct (match maxValue v with Some m => _ | None => _ end); simpl; auto.
Qed.

(** A value recorded in [newValues] is the value some node answered. *)
Lemma Increment_fold_recorded rs v n val :
  newValues (foldl Increment_step v rs) !! n = Some val →
  newValues v !! n = Some val
  ∨ ∃ r, r ∈ rs ∧ is_stored r ∧ resp_Node r = n ∧ resp_NewValue r = val.
Proof.
  revert v. induction rs as [|r rs IH]; intros v; simpl; [by left|].
  intros [Hv|(r' & Hin & Hr')]%IH.
  - revert Hv. unfold Increment_step.
    repeat case_decide; unfold is_stored in *; simpl; try (by left).
    all: destruct (match maxValue v with Some m => _ | None => _ end); simpl;
      try (by left).
    all: destruct (decide (resp_Node r = n)) as [<-|Hne];
      [rewrite lookup_insert_eq; intros [= <-]; right; exists r; split; [left|done]
      |rewrite lookup_insert_ne by done; by left].
  - right. exists r'. split; [by right|done].
Qed.

Lemma Client_Increment_run_none e key delta :
  size (healthy e) ≠ 0 →
  size (healthy e) ≤ length (arrivals e) →
  maxNode (foldl Increment_step (mkVars [] None None ∅)
             (take (size (healthy e)) (arrivals e))) = None →
  run (Client_Increment range_nodes range_values e key delta)
  = (Ret (0%Z, Some ErrCacheMiss),
     dispatches (OpIncrement key delta) (range_nodes (healthy e))).
Proof.
  intros H0 Hlen Hmn. unfold run, Client_Increment.
  destruct (Nat.eqb_spec (size (healthy e)) 0) as [|_]; [done|].
  unfold make_chan, go_finish, mbind, Go_bind.
  rewrite dispatch_all_run.
  cbn [chan trace app].
  rewrite Increment_collect_fold, collect_run by done.
  cbn [chan trace]. rewrite Hmn.
  unfold dispatches. by rewrite <- list_fmap_compose.
Qed.

(** What the fan-out leaves in the variables when some node answered a
    value and the nodes that did are known. *)
Lemma Increment_fold_maximum rs :
  Exists is_stored rs →
  Forall (λ r, is_stored r → resp_Node r ≠ None) rs →
  ∃ mn m,
    maxNode (foldl Increment_step (mkVars [] None None ∅) rs) = Some mn
    ∧ maxValue (foldl Increment_step (mkVars [] None None ∅) rs) = Some m
    ∧ (∃ r, r ∈ rs ∧ is_stored r ∧ resp_NewValue r = m)
    ∧ (∀ r, r ∈ rs → is_stored r → (resp_NewValue r ≤ m)%Z).
Proof.
  intros Hex Hnodes.
  pose proof (Increment_fold_max rs (mkVars [] None None ∅)) as Hmax. simpl in Hmax.
  assert (maxValue (foldl Increment_step (mkVars [] None None ∅) rs) ≠ None) as Hsome.
  { rewrite Hmax. apply Exists_exists in Hex as (r & Hin & Hr).
    assert (resp_NewValue r ∈ resp_NewValue <$> filter is_stored rs) as Hv
      by (by apply list_elem_of_fmap_2, list_elem_of_filter).
    destruct (resp_NewValue <$> filter is_stored rs) as [|x l];
      [by apply elem_of_nil in Hv|apply max_with_nonempty]. }
  pose proof (Increment_fold_lead rs (mkVars [] None None ∅) Hnodes
                (λ H, False_ind _ (H eq_refl)) Hsome) as Hlead.
  destruct (maxNode _) as [mn|]; [|done].
  destruct (maxValue _) as [m|] eqn:Hm; [|done].
  exists mn, m. split_and!; [done..| |].
  - symmetry in Hmax. apply max_with_from_None in Hmax as [Hin _].
    apply list_elem_of_fmap in Hin as (r & -> & [Hr Hin]%list_elem_of_filter). eauto.
  - intros r Hin Hr. symmetry in Hmax. apply max_with_from_None in Hmax as [_ Hall].
    apply (proj1 (Forall_forall _ _) Hall).
    by apply list_elem_of_fmap_2, list_elem_of_filter.
Qed.

(** X9: when no node answers a value, [Increment] returns [ErrCacheMiss]
    without re-read or repair, also when no node answered [ErrCacheMiss]
    (every node failed otherwise). *)
Theorem Increment_without_value_is_miss (e : Env) (key : string) (delta : Z) :
  size (healthy e) ≠ 0 →
  size (healthy e) ≤ length (arrivals e) →
  Forall (λ r, ¬ is_stored r) (take (size (healthy e)) (arrivals e)) →
  run (Client_Increment range_nodes range_values e key delta)
  = (Ret (0%Z, Some ErrCacheMiss),
     dispatches (OpIncrement key delta) (range_nodes (healthy e))).
Proof.
  intros H0 Hlen Hno. apply Client_Increment_run_none; [done..|].
  by rewrite Increment_fold_no_value.
Qed.

(** X10: when some node answers a value and the re-read, if one is needed,
    gives an item, [Increment] returns the largest value a node answered,
    with a nil error. *)
Theorem Increment_returns_maximum (e : Env) (key : string) (delta : Z) reread it :
  size (healthy e) ≠ 0 →
  Exists is_stored (take (size (healthy e)) (arrivals e)) →
  Forall (λ r, is_stored r → resp_Node r ≠ None) (take (size (healthy e)) (arrivals e)) →
  arrivals e !! size (healthy e) = Some reread →
  resp_Error reread = None →
  resp_Item reread = Some it →
  ∃ m,
    (∃ r, r ∈ take (size (healthy e)) (arrivals e) ∧ is_stored r ∧ resp_NewValue r = m)
    ∧ (∀ r, r ∈ take (size (healthy e)) (arrivals e) → is_stored r
            → (resp_NewValue r ≤ m)%Z)
    ∧ (run (Client_Increment range_nodes range_values e key delta)).1 = Ret (m, None).
Proof.
  intros H0 Hex Hnodes Hreread Herr Hit.
  assert (size (healthy e) ≤ length (arrivals e)) as Hlen
    by (apply Nat.lt_le_incl; by eapply lookup_lt_Some).
  destruct (Increment_fold_maximum _ Hex Hnodes) as (mn & m & Hmn & Hm & Hin & Hall).
  exists m. split_and!; [done..|].
  rewrite (Client_Increment_run e key delta mn m H0 Hlen Hmn Hm).
  rewrite (drop_S _ _ _ Hreread), Herr, Hit.
  by destruct (0 <? _).
Qed.

Lemma repairs_reread n key lvl fmt tr :
  repairs (Dispatch n (OpGet key) true :: Log lvl fmt :: tr) = repairs tr.
Proof. done. Qed.

(** X11: under the same conditions every repair [Increment] writes carries
    the re-read item and goes to a node that answered [ErrCacheMiss] or a
    value below the one returned; every node that answered [ErrCacheMiss]
    is repaired. *)
Theorem Increment_repairs_misses_and_low_values (e : Env) (key : string) (delta : Z)
    reread it m :
  size (healthy e) ≠ 0 →
  Exists is_stored (take (size (healthy e)) (arrivals e)) →
  Forall (λ r, is_stored r → resp_Node r ≠ None) (take (size (healthy e)) (arrivals e)) →
  arrivals e !! size (healthy e) = Some reread →
  resp_Error reread = None →
  resp_Item reread = Some it →
  (run (Client_Increment range_nodes range_values e key delta)).1 = Ret (m, None) →
  (∀ n it', (n, it') ∈ repairs (run (Client_Increment range_nodes range_values e key delta)).2 →
     it' = it
     ∧ ∃ r, r ∈ take (size (healthy e)) (arrivals e) ∧ resp_Node r = n
            ∧ (is_miss r ∨ (is_stored r ∧ (resp_NewValue r < m)%Z)))
  ∧ (∀ r, r ∈ take (size (healthy e)) (arrivals e) → is_miss r →
       (resp_Node r, it) ∈ repairs (run (Client_Increment range_nodes range_values e key delta)).2).
Proof using range_values_perm.
  intros H0 Hex Hnodes Hreread Herr Hit.
  assert (size (healthy e) ≤ length (arrivals e)) as Hlen
    by (apply Nat.lt_le_incl; by eapply lookup_lt_Some).
  destruct (Increment_fold_maximum _ Hex Hnodes) as (mn & m' & Hmn & Hm & _ & _).
  rewrite (Client_Increment_run e key delta mn m' H0 Hlen Hmn Hm).
  rewrite (drop_S _ _ _ Hreread), Herr, Hit.
  rewrite Increment_low_filter, Increment_fold_misses. simpl.
  set (rs := take (size (healthy e)) (arrivals e)) in *.
  set (v := foldl Increment_step (mkVars [] None None ∅) rs) in *.
  set (lows := fst <$> filter (λ nv : option Node * Z, (nv.2 < m')%Z)
                              (range_values (newValues v))).
  assert (∀ n, n ∈ lows →
            ∃ r, r ∈ rs ∧ resp_Node r = n ∧ is_stored r ∧ (resp_NewValue r < m')%Z)
    as Hlows.
  { intros n ([n' val] & -> & [Hlt Hin]%list_elem_of_filter)%list_elem_of_fmap.
    simpl in *. rewrite (range_values_perm _) in Hin.
    apply elem_of_map_to_list in Hin.
    apply Increment_fold_recorded in Hin as [Hin|(r & ? & ? & ? & ?)]; [done|].
    exists r. subst val. done. }
  destruct (0 <? length _) eqn:Hnts; simpl.
  - intros [= <-]. split.
    + intros n it'. rewrite repairs_app, repairs_dispatches, repairs_reread, repairs_async.
      simpl. intros (n' & [= -> ->] & Hin)%list_elem_of_fmap. split; [done|].
      apply elem_of_app in Hin as [Hin|Hin].
      * apply list_elem_of_fmap in Hin as (r & -> & [Hr Hin]%list_elem_of_filter).
        exists r. split_and!; [done..|by left].
      * destruct (Hlows _ Hin) as (r & ? & ? & ? & ?).
        exists r. split_and!; [done..|by right].
    + intros r Hin Hr. rewrite repairs_app, repairs_dispatches, repairs_reread, repairs_async.
      simpl. apply (list_elem_of_fmap_2 (λ n, (n, it))), elem_of_app. left.
      by apply list_elem_of_fmap_2, list_elem_of_filter.
  - intros [= <-]. apply Nat.ltb_ge in Hnts. split.
    + intros n it'. rewrite repairs_dispatches. intros Hin. by apply elem_of_nil in Hin.
    + intros r Hin Hr. exfalso.
      assert (resp_Node r ∈ (resp_Node <$> filter is_miss rs) ++ lows) as Hel
        by (apply elem_of_app; left; by apply list_elem_of_fmap_2, list_elem_of_filter).
      destruct ((resp_Node <$> filter is_miss rs) ++ lows);
        [by apply elem_of_nil in Hel|simpl in Hnts; lia].
Qed.

(** X12: when every node that answers a value answers the same one and no
    node answers [ErrCacheMiss], [Increment] returns that value without
    re-read or repair; nodes that failed otherwise are left alone. *)
Theorem Increment_agreeing_nodes (e : Env) (key : string) (delta m : Z) :
  size (healthy e) ≠ 0 →
  size (healthy e) ≤ length (arrivals e) →
  Exists is_stored (take (size (healthy e)) (arrivals e)) →
  Forall (λ r, ¬ is_miss r ∧ (is_stored r → resp_NewValue r = m ∧ resp_Node r ≠ None))
         (take (size (healthy e)) (arrivals e)) →
  run (Client_Increment range_nodes range_values e key delta)
  = (Ret (m, None), dispatches (OpIncrement key delta) (range_nodes (healthy e))).
Proof using range_values_perm.
  intros H0 Hlen Hex Hall.
  assert (Forall (λ r, is_stored r → resp_Node r ≠ None)
            (take (size (healthy e)) (arrivals e))) as Hnodes.
  { eapply Forall_impl; [exact Hall|]. intros r [_ Hr] Hs. by apply Hr. }
  destruct (Increment_fold_maximum _ Hex Hnodes) as (mn & m' & Hmn & Hm & (r0 & Hin0 & Hs0 & Hv0) & _).
  assert (m' = m) as ->.
  { rewrite <- Hv0. by apply (proj1 (Forall_forall _ _) Hall r0 Hin0). }
  rewrite (Client_Increment_run e key delta mn m H0 Hlen Hmn Hm).
  rewrite Increment_low_filter, Increment_fold_misses. simpl.
  rewrite filter_none.
  2:{ eapply Forall_impl; [exact Hall|]. by intros r [Hr _]. }
  rewrite filter_none; [done|].
  apply Forall_forall. intros [n val] Hin Hlt. simpl in Hlt.
  rewrite (range_values_perm _) in Hin. apply elem_of_map_to_list in Hin.
  apply Increment_fold_recorded in Hin as [Hin|(r & Hr & Hs & _ & Hv)]; [done|].
  destruct (proj1 (Forall_forall _ _) Hall r Hr) as [_ Hm']. destruct (Hm' Hs). lia.
Qed.

(** ** Further properties of the supervisor *)

Lemma GetNodes_added_incoming nodes st :
  dom (incomingNodes (GetNodes_added probe nodes st))
  = dom (incomingNodes st) ∪ list_to_set nodes.
Proof.
  clear range_nodes_perm range_values_perm.
  revert st. induction nodes as [|nodeAddr nodes IH]; intros st; simpl.
  - set_solver.
  - rewrite IH. destruct (negb _); [destruct (probe _)|]; simpl;
      rewrite dom_insert_L; set_solver.
Qed.

Lemma GetNodes_added_new nodes st k :
  Nodes st !! k = None → k ∈ nodes →
  Nodes (GetNodes_added probe nodes st) !! k = Some (NewNode k).
Proof.
  revert st. induction nodes as [|nodeAddr nodes IH]; intros st Hk Hin; simpl.
  { by apply elem_of_nil in Hin. }
  destruct (decide (nodeAddr = k)) as [->|Hne].
  - apply GetNodes_added_lookup. unfold NodeList_Exists, NodeList_Add.
    rewrite bool_decide_eq_false_2 by (rewrite Hk; by intros [? ?]). simpl.
    destruct (probe _); simpl. apply lookup_insert_eq.
  - apply IH.
    + unfold NodeList_Add, NewNode. destruct (negb _); [destruct (probe _)|]; simpl;
        [by rewrite lookup_insert_ne|done].
    + apply elem_of_cons in Hin as [->|Hin]; done.
Qed.

Lemma GetNodes_added_existing nodes st :
  (∀ k, k ∈ nodes → is_Some (Nodes st !! k)) →
  Nodes (GetNodes_added probe nodes st) = Nodes st
  ∧ calls (GetNodes_added probe nodes st) = calls st.
Proof.
  revert st. induction nodes as [|nodeAddr nodes IH]; intros st Hall; simpl; [done|].
  unfold NodeList_Exists. rewrite bool_decide_eq_true_2 by (apply Hall; left). simpl.
  apply (IH (mkMembership _ _ _)). intros k Hk. apply Hall. by right.
Qed.

(** A new endpoint is checked once, when it is added. *)
Lemma GetNodes_added_probes nodes st :
  ∃ news,
    probes (calls (GetNodes_added probe nodes st)) = probes (calls st) ++ news
    ∧ NoDup news
    ∧ ∀ n, n ∈ news ↔ ∃ k, k ∈ nodes ∧ Nodes st !! k = None ∧ n = NewNode k.
Proof.
  revert st. induction nodes as [|nodeAddr nodes IH]; intros st; simpl.
  { exists []. rewrite app_nil_r. split_and!; [done|constructor|].
    intros n. split; [by intros ?%elem_of_nil|]. by intros (k & ?%elem_of_nil & _). }
  unfold NodeList_Exists, NodeList_Add. case_bool_decide as Hex; simpl.
  - destruct (IH (mkMembership (Nodes st) (<[nodeAddr:=true]> (incomingNodes st)) (calls st)))
      as (news & -> & Hnd & Hnews).
    exists news. split_and!; [done..|].
    intros n. rewrite Hnews. simpl. split.
    + intros (k & Hk & Hnone & ->). exists k. split; [by right|done].
    + intros (k & [->|Hk]%elem_of_cons & Hnone & ->); [|by eauto].
      rewrite Hnone in Hex. by destruct Hex.
  - destruct (probe (NewNode nodeAddr)) as [ok err] eqn:Hprobe.
    match goal with |- context [GetNodes_added probe nodes ?st'] =>
      destruct (IH st') as (news & -> & Hnd & Hnews) end.
    simpl in *. exists (NewNode nodeAddr :: news). split_and!.
    + unfold probes. rewrite !omap_app. simpl.
      rewrite <- !app_assoc. f_equal. simpl.
      by destruct err, ok.
    + constructor; [|done]. rewrite Hnews. intros (k & _ & Hk & [= ->]).
      unfold NewNode in Hk. simpl in Hk. by rewrite lookup_insert_eq in Hk.
    + intros n. rewrite elem_of_cons, Hnews. split.
      * intros [->|(k & Hk & Hnone & ->)].
        -- exists nodeAddr. split; [left|]. split; [|done].
           apply eq_None_not_Some. done.
        -- exists k. split; [by right|]. split; [|done].
           destruct (decide (nodeAddr = k)) as [->|Hne];
             [by rewrite lookup_insert_eq in Hnone|by rewrite lookup_insert_ne in Hnone].
      * intros (k & [->|Hk]%elem_of_cons & Hnone & ->); [by left|].
        destruct (decide (nodeAddr = k)) as [->|Hne]; [by left|].
        right. exists k. split_and!; [done| |done]. by rewrite lookup_insert_ne.
Qed.

Lemma GetNodes_sources_ok sources st :
  Forall (λ src : list string * option error, src.2 = None) sources →
  ∃ st', GetNodes_sources probe sources st = (false, st')
         ∧ Nodes st ⊆ Nodes st'
         ∧ dom (Nodes st') = dom (Nodes st) ∪ reported sources
         ∧ dom (incomingNodes st') = dom (incomingNodes st) ∪ reported sources
         ∧ (∀ k, Nodes st !! k = None → k ∈ reported sources →
                 Nodes st' !! k = Some (NewNode k)).
Proof.
  clear range_nodes_perm range_values_perm.
  intros Hok. revert st. unfold reported.
  induction Hok as [|[ns e] sources He Hok IH]; intros st; simpl in *.
  - exists st. split_and!; [done..|set_solver|set_solver|]. intros k _ Hk. set_solver.
  - subst e. destruct (IH (GetNodes_added probe ns st)) as (st' & -> & Hsub & Hdom & Hinc & Hnew).
    exists st'. split; [done|]. split_and!.
    + etrans; [|exact Hsub]. apply map_subseteq_spec. intros k n. apply GetNodes_added_lookup.
    + rewrite Hdom, GetNodes_added_dom, list_to_set_app_L. set_solver.
    + rewrite Hinc, GetNodes_added_incoming, list_to_set_app_L. set_solver.
    + intros k Hk Hin. rewrite list_to_set_app_L in Hin.
      destruct (decide (k ∈ ns)) as [Hns|Hns].
      * eapply lookup_weaken; [|exact Hsub]. by apply GetNodes_added_new.
      * apply Hnew; [|set_solver].
        apply not_elem_of_dom. rewrite GetNodes_added_dom.
        apply not_elem_of_dom in Hk. set_solver.
Qed.

Lemma GetNodes_removed_incoming iter st :
  incomingNodes (GetNodes_removed iter st) = incomingNodes st.
Proof.
  revert st. induction iter as [|[k n] iter IH]; intros st; simpl; [done|].
  rewrite IH. by destruct (incomingNodes st !! k).
Qed.

Lemma GetNodes_removed_lookup iter st k :
  Nodes (GetNodes_removed iter st) !! k
  = if decide (k ∈ iter.*1 ∧ incomingNodes st !! k = None) then None else Nodes st !! k.
Proof.
  clear range_nodes_perm range_values_perm probe.
  revert st. induction iter as [|[k' n] iter IH]; intros st; cbn [GetNodes_removed].
  { case_decide as Hin; [|done]. destruct Hin as [Hin _]. by apply elem_of_nil in Hin. }
  rewrite IH, fmap_cons. cbn [fst].
  destruct (incomingNodes st !! k') as [b|] eqn:Hinc; cbn [Nodes incomingNodes].
  - repeat case_decide; try done; exfalso; set_solver.
  - destruct (decide (k = k')) as [->|Hne].
    + rewrite (decide_True (P:=k' ∈ k' :: iter.*1 ∧ _)) by (split; [left|done]).
      destruct (decide (k' ∈ iter.*1 ∧ _)); [done|apply lookup_delete_eq].
    + rewrite lookup_delete_ne by done.
      repeat case_decide; try done; exfalso; set_solver.
Qed.

Lemma GetNodes_removed_probes iter st :
  probes (calls (GetNodes_removed iter st)) = probes (calls st).
Proof.
  revert st. induction iter as [|[k n] iter IH]; intros st; simpl; [done|].
  rewrite IH. destruct (incomingNodes st !! k); [done|]. simpl.
  unfold probes. rewrite omap_app. simpl. by rewrite app_nil_r.
Qed.

Lemma GetNodes_removed_none iter st :
  (∀ k, k ∈ iter.*1 → is_Some (incomingNodes st !! k)) →
  GetNodes_removed iter st = st.
Proof.
  revert st. induction iter as [|[k n] iter IH]; intros st Hall; simpl; [done|].
  destruct (Hall k) as [b ->]; [left|]. apply IH. intros k' Hk'. apply Hall. by right.
Qed.

Lemma range_nodes_keys (nodes : gmap string Node) k :
  k ∈ (range_nodes nodes).*1 ↔ k ∈ dom nodes.
Proof using range_nodes_perm.
  rewrite (range_nodes_perm nodes), elem_of_dom. split.
  - intros ([k' n] & -> & Hkn%elem_of_map_to_list)%list_elem_of_fmap. eauto.
  - intros [n Hn]. apply list_elem_of_fmap. exists (k, n).
    split; [done|by apply elem_of_map_to_list].
Qed.

Lemma Client_GetNodes_lookup
    (srcs : list (list string * option error)) (nodeList : gmap string Node) (k : string) :
  Forall (λ src : list string * option error, src.2 = None) srcs →
  (Client_GetNodes range_nodes probe srcs nodeList).1 !! k
  = if decide (k ∈ reported srcs)
    then Some (default (NewNode k) (nodeList !! k))
    else None.
Proof using range_nodes_perm.
  intros Hok. unfold Client_GetNodes.
  destruct (GetNodes_sources_ok srcs (mkMembership nodeList ∅ []) Hok)
    as (st' & -> & Hsub & Hdom & Hinc & Hnew).
  simpl in *. rewrite GetNodes_removed_lookup.
  rewrite dom_empty_L, union_empty_l_L in Hinc.
  destruct (decide (k ∈ reported srcs)) as [Hk|Hk].
  - rewrite decide_False.
    2:{ intros [_ Hnone]. apply not_elem_of_dom in Hnone. by rewrite Hinc in Hnone. }
    destruct (nodeList !! k) as [n|] eqn:Hn; simpl.
    + by eapply lookup_weaken.
    + by apply Hnew.
  - destruct (decide _) as [|Hno]; [done|].
    apply not_elem_of_dom. intros Hin. apply Hno. split.
    + by apply range_nodes_keys.
    + apply not_elem_of_dom. by rewrite Hinc.
Qed.

(** X13: when every source answers, a refresh round leaves in the NodeList
    exactly the endpoints the sources reported: a reported endpoint keeps the
    node it had or gets a new one, every other endpoint is removed. *)
Theorem GetNodes_installs_reported_endpoints
    (srcs : list (list string * option error)) (nodeList : gmap string Node) :
  Forall (λ src : list string * option error, src.2 = None) srcs →
  dom (Client_GetNodes range_nodes probe srcs nodeList).1 = reported srcs
  ∧ (∀ k n, k ∈ reported srcs → nodeList !! k = Some n →
       (Client_GetNodes range_nodes probe srcs nodeList).1 !! k = Some n)
  ∧ (∀ k, k ∈ reported srcs → nodeList !! k = None →
       (Client_GetNodes range_nodes probe srcs nodeList).1 !! k = Some (NewNode k)).
Proof using range_nodes_perm.
  intros Hok. split_and!.
  - apply set_eq. intros k. rewrite elem_of_dom, Client_GetNodes_lookup by done.
    destruct (decide (k ∈ reported srcs)); split; try done; by intros [? ?].
  - intros k n Hk Hn. rewrite Client_GetNodes_lookup by done.
    by rewrite decide_True, Hn.
  - intros k Hk Hn. rewrite Client_GetNodes_lookup by done.
    by rewrite decide_True, Hn.
Qed.

Lemma GetNodes_sources_probes srcs st :
  Forall (λ src : list string * option error, src.2 = None) srcs →
  ∃ news,
    probes (calls (GetNodes_sources probe srcs st).2) = probes (calls st) ++ news
    ∧ NoDup news
    ∧ ∀ n, n ∈ news ↔ ∃ k, k ∈ reported srcs ∧ Nodes st !! k = None ∧ n = NewNode k.
Proof.
  clear range_nodes_perm range_values_perm.
  intros Hok. revert st. unfold reported.
  induction Hok as [|[ns e] srcs He Hok IH]; intros st; simpl in *.
  { exists []. rewrite app_nil_r. split_and!; [done|constructor|].
    intros n. split; [by intros ?%elem_of_nil|]. intros (k & Hk & _). set_solver. }
  subst e.
  destruct (GetNodes_added_probes ns st) as (news1 & Hp1 & Hnd1 & Hin1).
  destruct (IH (GetNodes_added probe ns st)) as (news2 & Hp2 & Hnd2 & Hin2).
  pose proof (GetNodes_added_dom ns st) as Hdom.
  exists (news1 ++ news2). split_and!.
  - by rewrite Hp2, Hp1, <- app_assoc.
  - apply NoDup_app. split_and!; [done| |done].
    intros n (k & Hk & _ & ->)%Hin1 (k' & _ & Hnone & [= <-])%Hin2.
    apply not_elem_of_dom in Hnone. rewrite Hdom in Hnone. set_solver.
  - intros n. rewrite elem_of_app, Hin1, Hin2, list_to_set_app_L. split.
    + intros [(k & Hk & Hnone & ->)|(k & Hk & Hnone & ->)].
      * exists k. split_and!; [set_solver|done..].
      * exists k. split_and!; [set_solver| |done].
        destruct (Nodes st !! k) as [n|] eqn:Hn; [|done].
        by rewrite (GetNodes_added_lookup ns st k n Hn) in Hnone.
    + intros (k & Hk & Hnone & ->).
      destruct (decide (k ∈ ns)) as [Hns|Hns]; [left; by eauto|].
      right. exists k. split_and!; [set_solver| |done].
      apply not_elem_of_dom. rewrite Hdom. apply not_elem_of_dom in Hnone. set_solver.
Qed.

(** X14: in such a round the health of each endpoint that is new to the
    NodeList is checked once, and no node that was in the NodeList is
    checked. *)
Theorem GetNodes_checks_new_endpoints_once
    (srcs : list (list string * option error)) (nodeList : gmap string Node) :
  Forall (λ src : list string * option error, src.2 = None) srcs →
  NoDup (probes (Client_GetNodes range_nodes probe srcs nodeList).2)
  ∧ ∀ n, n ∈ probes (Client_GetNodes range_nodes probe srcs nodeList).2
         ↔ ∃ k, k ∈ reported srcs ∧ nodeList !! k = None ∧ n = NewNode k.
Proof.
  intros Hok. unfold Client_GetNodes.
  destruct (GetNodes_sources_probes srcs (mkMembership nodeList ∅ []) Hok)
    as (news & Hp & Hnd & Hin).
  destruct (GetNodes_sources_ok srcs (mkMembership nodeList ∅ []) Hok)
    as (st' & Heq & _).
  rewrite Heq in *. simpl in *. by rewrite GetNodes_removed_probes, Hp.
Qed.

Lemma GetNodes_sources_existing srcs st :
  Forall (λ src : list string * option error, src.2 = None) srcs →
  (∀ k, k ∈ reported srcs → is_Some (Nodes st !! k)) →
  ∃ incoming,
    GetNodes_sources probe srcs st = (false, mkMembership (Nodes st) incoming (calls st))
    ∧ dom incoming = dom (incomingNodes st) ∪ reported srcs.
Proof.
  clear range_nodes_perm range_values_perm.
  intros Hok. revert st. unfold reported.
  induction Hok as [|[ns e] srcs He Hok IH]; intros st Hall; simpl in *.
  { exists (incomingNodes st). split; [by destruct st|set_solver]. }
  subst e.
  destruct (GetNodes_added_existing ns st) as [HN Hc].
  { intros k Hk. apply Hall. set_solver. }
  destruct (IH (GetNodes_added probe ns st)) as (incoming & -> & Hdom).
  { intros k Hk. rewrite HN. apply Hall. set_solver. }
  exists incoming. rewrite HN, Hc. split; [done|].
  rewrite Hdom, GetNodes_added_incoming, list_to_set_app_L. set_solver.
Qed.

(** X15: a refresh round on a NodeList that already holds exactly the
    reported endpoints changes nothing: no node is made, checked or removed
    and nothing is logged. *)
Theorem GetNodes_converged_is_noop
    (srcs : list (list string * option error)) (nodeList : gmap string Node) :
  Forall (λ src : list string * option error, src.2 = None) srcs →
  dom nodeList = reported srcs →
  Client_GetNodes range_nodes probe srcs nodeList = (nodeList, []).
Proof using range_nodes_perm.
  intros Hok Hdom. unfold Client_GetNodes.
  destruct (GetNodes_sources_existing srcs (mkMembership nodeList ∅ []) Hok)
    as (incoming & -> & Hinc).
  { intros k Hk. simpl. apply elem_of_dom. by rewrite Hdom. }
  simpl in *. rewrite GetNodes_removed_none; [done|].
  intros k Hk%range_nodes_keys. simpl. apply elem_of_dom.
  rewrite Hinc, dom_empty_L, union_empty_l_L. by rewrite <- Hdom.
Qed.

Lemma GetNodes_added_keys nodes st :
  (∀ k n, Nodes st !! k = Some n → Endpoint n = k) →
  ∀ k n, Nodes (GetNodes_added probe nodes st) !! k = Some n → Endpoint n = k.
Proof.
  revert st. induction nodes as [|nodeAddr nodes IH]; intros st Hinv; simpl; [done|].
  apply IH. unfold NodeList_Add, NewNode.
  destruct (negb _); [destruct (probe _)|]; simpl; [|done].
  intros k n. destruct (decide (nodeAddr = k)) as [->|Hne].
  - rewrite lookup_insert_eq. by intros [= <-].
  - rewrite lookup_insert_ne by done. apply Hinv.
Qed.

Lemma GetNodes_sources_keys srcs st :
  (∀ k n, Nodes st !! k = Some n → Endpoint n = k) →
  ∀ k n, Nodes (GetNodes_sources probe srcs st).2 !! k = Some n → Endpoint n = k.
Proof.
  revert st. induction srcs as [|[ns [e|]] srcs IH]; intros st Hinv; simpl; [done..|].
  apply IH. by apply GetNodes_added_keys.
Qed.

(** X16: a refresh round, aborted or not, keeps every node of the NodeList
    under its own endpoint. *)
Theorem GetNodes_keeps_endpoint_keys
    (srcs : list (list string * option error)) (nodeList : gmap string Node) :
  (∀ k n, nodeList !! k = Some n → Endpoint n = k) →
  ∀ k n, (Client_GetNodes range_nodes probe srcs nodeList).1 !! k = Some n → Endpoint n = k.
Proof.
  intros Hinv k n. unfold Client_GetNodes.
  pose proof (GetNodes_sources_keys srcs (mkMembership nodeList ∅ []) Hinv k n) as Hkeys.
  destruct (GetNodes_sources probe srcs _) as [[] st']; simpl in *; [done|].
  rewrite GetNodes_removed_lookup. by destruct (decide _).
Qed.

Lemma HealthCheck_loop_nil iter tr :
  (HealthCheck_loop probe iter tr).1 = None
  ↔ Forall (λ kn : string * Node, (probe kn.2).2 = None) iter.
Proof.
  revert tr. induction iter as [|[k n] iter IH]; intros tr; simpl.
  - split; [constructor|done].
  - destruct (probe n) as [ok [err|]] eqn:Hn; simpl.
    + split; [done|]. intros [Hn' _]%Forall_cons. simpl in Hn'. by rewrite Hn in Hn'.
    + rewrite IH. split; [intros ?; constructor; [simpl; by rewrite Hn|done]|].
      by intros [_ ?]%Forall_cons.
Qed.

(** X17: [HealthCheck] returns nil exactly when the check of every node of
    the NodeList returns no error; each node was then checked once. *)
Theorem HealthCheck_nil_iff_all_pass (nodeList : gmap string Node) :
  ((Client_HealthCheck range_nodes probe nodeList).1 = None
   ↔ ∀ k n, nodeList !! k = Some n → (probe n).2 = None)
  ∧ ((Client_HealthCheck range_nodes probe nodeList).1 = None →
     probes (Client_HealthCheck range_nodes probe nodeList).2
     ≡ₚ (map_to_list nodeList).*2).
Proof using range_nodes_perm.
  unfold Client_HealthCheck. rewrite HealthCheck_loop_nil. split.
  - rewrite Forall_forall. split.
    + intros Hall k n Hkn. apply (Hall (k, n)).
      rewrite (range_nodes_perm nodeList). by apply elem_of_map_to_list.
    + intros Hall [k n] Hin. rewrite (range_nodes_perm nodeList) in Hin.
      apply elem_of_map_to_list in Hin. by eapply Hall.
  - intros Hall. rewrite HealthCheck_loop_all by done. simpl.
    rewrite <- (range_nodes_perm nodeList).
    assert (∀ l : list (string * Node), probes (Probe ∘ snd <$> l) = l.*2) as ->; [|done].
    unfold probes. induction l as [|kn l IH]; [done|]. simpl. by f_equal.
Qed.

(** *** Client.WaitForNodes *)

(** X18: [WaitForNodes] is decided by the first poll that is past the
    deadline or sees a healthy node.  Past the deadline it returns
    [ErrNoHealthyNodes] whatever the healthy count is; otherwise it returns
    nil. *)
Theorem WaitForNodes_first_decisive_poll (deadline t : Z) (count : nat)
    (pre post : list (Z * nat)) :
  Forall (λ p : Z * nat, (p.1 ≤ deadline)%Z ∧ p.2 = 0) pre →
  ((deadline < t)%Z →
     WaitForNodes deadline (pre ++ (t, count) :: post) = Some (Some ErrNoHealthyNodes))
  ∧ ((t ≤ deadline)%Z → 0 < count →
     WaitForNodes deadline (pre ++ (t, count) :: post) = Some None).
Proof.
  intros Hpre. induction Hpre as [|[t' c'] pre [Ht' Hc'] Hpre IH]; simpl in *.
  - split.
    + intros Hlt. by rewrite (proj2 (Z.ltb_lt _ _) Hlt).
    + intros Hle Hc. rewrite (proj2 (Z.ltb_ge _ _) Hle).
      by rewrite (proj2 (Nat.ltb_lt _ _) Hc).
  - subst c'. rewrite (proj2 (Z.ltb_ge _ _) Ht'). simpl. exact IH.
Qed.

Lemma advancing_tail step p polls : advancing step (p :: polls) → advancing step polls.
Proof. intros Hadv i q r Hq Hr. by apply (Hadv (S i) q r). Qed.

(** X19: with a clock that moves on by [step] at least between polls,
    [WaitForNodes] returns within [(deadline - t0) / step + 2] polls, [t0]
    being the first reading; it returns nil only if a poll that was not past
    the deadline saw a healthy node. *)
Theorem WaitForNodes_returns (step deadline t0 : Z) (c0 : nat) (rest : list (Z * nat)) :
  (0 < step)%Z →
  advancing step ((t0, c0) :: rest) →
  ((deadline - t0) / step + 1 < Z.of_nat (length ((t0, c0) :: rest)))%Z →
  is_Some (WaitForNodes deadline ((t0, c0) :: rest))
  ∧ (WaitForNodes deadline ((t0, c0) :: rest) = Some None →
     ∃ p, p ∈ (t0, c0) :: rest ∧ (p.1 ≤ deadline)%Z ∧ 0 < p.2).
Proof.
  intros Hstep. revert t0 c0.
  induction rest as [|[t1 c1] rest IH]; intros t0 c0 Hadv Hlen;
    cbn [WaitForNodes]; fold WaitForNodes.
  - destruct (Z.ltb_spec deadline t0) as [Hlt|Hle]; [split; [by eexists|done]|].
    destruct (Nat.ltb_spec 0 c0) as [Hc|Hc].
    + split; [by eexists|]. intros _. exists (t0, c0). split; [left|done].
    + exfalso. simpl in Hlen.
      assert (0 ≤ (deadline - t0) / step)%Z by (apply Z.div_pos; lia). lia.
  - destruct (Z.ltb_spec deadline t0) as [Hlt|Hle]; [split; [by eexists|done]|].
    destruct (Nat.ltb_spec 0 c0) as [Hc|Hc].
    + split; [by eexists|]. intros _. exists (t0, c0). split; [left|done].
    + assert (t0 + step ≤ t1)%Z as Ht1 by (by apply (Hadv 0 (t0, c0) (t1, c1))).
      destruct (IH t1 c1) as [Hsome Hnil].
      * by eapply advancing_tail.
      * assert ((deadline - t1) / step ≤ (deadline - t0) / step - 1)%Z.
        { replace ((deadline - t0) / step - 1)%Z
            with ((deadline - t0 + (-1) * step) / step)%Z
            by (rewrite Z.div_add; lia).
          apply Z.div_le_mono; lia. }
        cbn [length] in *. lia.
      * split; [done|]. intros (p & Hp & Hp')%Hnil. exists p. split; [by right|done].
Qed.

End ClientFacts.

(** ** Client.runloop *)

(** X20: the first firing of the timer finds both periods elapsed (the last
    runs stand at the zero instant).  With every source answering and every
    check passing, the loop then holds exactly the reported endpoints, nodes
    that were there kept, and [HealthCheck] has checked each of them once
    after the refresh. *)
Theorem runloop_first_tick
    (range_nodes : gmap string Node → list (string * Node))
    (GET_NODES_PERIOD HEALTHCHECK_PERIOD : Z) (t : Tick) (nodeList : gmap string Node) :
  (∀ m, range_nodes m ≡ₚ map_to_list m) →
  (GET_NODES_PERIOD < now t)%Z →
  (HEALTHCHECK_PERIOD < now t)%Z →
  Forall (λ src : list string * option error, src.2 = None) (sources t) →
  (∀ n, (probe_check t n).2 = None) →
  let st := runloop range_nodes GET_NODES_PERIOD HEALTHCHECK_PERIOD [Timer t] nodeList in
  dom (loop_Nodes st) = reported (sources t)
  ∧ (∀ k n, k ∈ reported (sources t) → nodeList !! k = Some n → loop_Nodes st !! k = Some n)
  ∧ lastGetNodes st = now_refreshed t
  ∧ lastHealthCheck st = now_checked t
  ∧ running st = true
  ∧ ∃ checked,
      loop_calls st
      = Log Info "Running"
        :: (Client_GetNodes range_nodes (probe_added t) (sources t) nodeList).2
        ++ (Probe <$> checked)
      ∧ checked ≡ₚ (map_to_list (loop_Nodes st)).*2.
Proof.
  intros Hperm HP1 HP2 Hok Hpass.
  assert ((0 + GET_NODES_PERIOD <? now t)%Z = true) as HP1' by (apply Z.ltb_lt; lia).
  assert ((0 + HEALTHCHECK_PERIOD <? now t)%Z = true) as HP2' by (apply Z.ltb_lt; lia).
  cbv zeta. unfold runloop. cbn [runloop_events]. unfold runloop_tick. cbn [lastGetNodes].
  rewrite HP1'.
  pose proof (λ k, Client_GetNodes_lookup range_nodes Hperm (probe_added t) (sources t)
                     nodeList k Hok) as Hlookup.
  destruct (Client_GetNodes _ _ _ _) as [nodes' refresh]. cbn [fst snd] in *.
  cbn [lastHealthCheck loop_Nodes loop_calls running lastGetNodes].
  rewrite HP2'.
  unfold Client_HealthCheck.
  rewrite HealthCheck_loop_all
    by (apply Forall_forall; intros [k n] _; apply Hpass).
  cbn [lastHealthCheck loop_Nodes loop_calls running lastGetNodes app].
  split_and!; [| |done..|].
  - apply set_eq. intros k. rewrite elem_of_dom, Hlookup.
    destruct (decide (k ∈ reported (sources t))); split; try done; by intros [? ?].
  - intros k n Hk Hn. by rewrite Hlookup, decide_True, Hn.
  - exists (range_nodes nodes').*2. split.
    + rewrite app_nil_r. do 2 f_equal. by rewrite <- list_fmap_compose.
    + by rewrite (Hperm nodes').
Qed.

(** ** The operations on the scenarios *)

(** C1: [nodeA] answers [ErrNotStored] and [nodeB] stored the item; the
    re-read succeeds with [item_old], and [Add] sends no [Set] to [nodeB]:
    line 96 enters the repair on [err != nil]. *)
Theorem Add_reread_success_no_repair :
  (run (Client_Get range_fixed reread_ok "x")).1 = Ret (Some item_old, None)
  ∧ (run (Client_Add range_fixed env_add_diverged reread_ok item_new)).1
    = Ret (Some ErrNotStored)
  ∧ repairs (run (Client_Add range_fixed env_add_diverged reread_ok item_new)).2 = [].
Proof. by vm_compute. Qed.

(** C6: same fan-out, the re-read fails: [item] is nil on line 98, the
    goroutine panics and [Add] returns [ErrUnknown], not [ErrNotStored]. *)
Theorem Add_reread_failure_returns_unknown :
  (run (Client_Get range_fixed env_all_failed "x")).1 = Ret (None, Some ErrCacheMiss)
  ∧ (run (Client_Add range_fixed env_add_diverged env_all_failed item_new)).1
    = Ret (Some ErrUnknown)
  ∧ repairs (run (Client_Add range_fixed env_add_diverged env_all_failed item_new)).2 = [].
Proof. by vm_compute. Qed.

(** C2: [nodeA] answers 11 and [nodeB] misses; the re-read from [nodeA]
    fails, line 345 returns without publishing a result and [Increment]
    never returns. *)
Theorem Increment_reread_failure_never_returns :
  (run (Client_Increment range_fixed values_fixed env_incr_reread_failed "ctr" 1)).1
  = Block.
Proof. by vm_compute. Qed.

(** C3: the nodes answer 11, 11 and 10.  When the 10 arrives after an 11 it
    is not recorded in [newValues] and [nodeC] gets no repair; when it
    arrives first, [nodeC] is repaired. *)
Theorem Increment_repair_depends_on_arrival_order :
  take 3 (arrivals env_incr_high_first) ≡ₚ take 3 (arrivals env_incr_low_first)
  ∧ run (Client_Increment range_fixed values_fixed env_incr_high_first "ctr" 1)
    = (Ret (11%Z, None),
       dispatches (OpIncrement "ctr" 1) (range_fixed (healthy env_incr_high_first)))
  ∧ repairs (run (Client_Increment range_fixed values_fixed env_incr_low_first "ctr" 1)).2
    = [(Some nodeC, item_ctr)].
Proof.
  split; [|by vm_compute].
  simpl. apply (Permutation_app_comm [_; _] [_]).
Qed.

(** C9: two nodes in the NodeList, the first one visited fails its check:
    line 580 returns there and [nodeB] is not checked. *)
Theorem HealthCheck_stops_at_first_error :
  size (cluster [nodeA; nodeB]) = 2
  ∧ Client_HealthCheck range_fixed (probe_down nodeA) (cluster [nodeA; nodeB])
    = (Some timeout, [Probe nodeA]).
Proof. by vm_compute. Qed.

(** C4 fails for [Get] and [Increment]: no healthy node is left when the
    response is read, and both return what the node answered. *)
Lemma Get_Increment_no_terminal_check :
  healthyAfter env_get_dead = 0
  ∧ (run (Client_Get range_fixed env_get_dead "x")).1 = Ret (Some item_old, None)
  ∧ healthyAfter env_incr_dead = 0
  ∧ (run (Client_Increment range_fixed values_fixed env_incr_dead "ctr" 1)).1
    = Ret (11%Z, None).
Proof. by vm_compute. Qed.

(** C5 fails when the failing source is not the first: the endpoint the first
    source reported is in the NodeList after the aborted round. *)
Lemma GetNodes_partial_reconciliation :
  cluster [nodeA; nodeB] !! "d" = None
  ∧ (Client_GetNodes range_fixed probe_up sources_second_fails
       (cluster [nodeA; nodeB])).1 !! "d" = Some nodeD.
Proof. by vm_compute. Qed.

(** ** The theorems at work on the scenarios *)

(** [env_get_repair]: [nodeA] has the item, [nodeB] misses and is repaired. *)
Lemma Client_Get_miss_or_read_repair_witness :
  size (healthy env_get_repair) ≠ 0
  ∧ size (Get_reduce range_fixed (healthy env_get_repair)) ≤ length (arrivals env_get_repair)
  ∧ ∃ r it,
      r ∈ take (size (Get_reduce range_fixed (healthy env_get_repair)))
               (arrivals env_get_repair)
      ∧ is_hit r ∧ resp_Item r = Some it
      ∧ (run (Client_Get range_fixed env_get_repair "x")).1 = Ret (Some it, None)
      ∧ repairs (run (Client_Get range_fixed env_get_repair "x")).2
        = (λ m, (resp_Node m, it))
            <$> filter is_miss
                  (take (size (Get_reduce range_fixed (healthy env_get_repair)))
                        (arrivals env_get_repair)).
Proof.
  assert (size (healthy env_get_repair) ≠ 0) as H0 by (vm_compute; lia).
  assert (size (Get_reduce range_fixed (healthy env_get_repair))
          ≤ length (arrivals env_get_repair)) as Hlen by (vm_compute; lia).
  split; [exact H0|]. split; [exact Hlen|].
  apply (Client_Get_miss_or_read_repair range_fixed env_get_repair "x" H0 Hlen).
  exists (found nodeA item_old). split.
  - vm_compute. left.
  - split; [reflexivity|discriminate].
Defined.

(** [env_get_five]: three of the five healthy nodes are read. *)
Lemma Client_Get_quorum_dispatch_witness :
  (∀ m, range_fixed m ≡ₚ map_to_list m)
  ∧ ∃ R : gmap string Node,
      R ⊆ healthy env_get_five
      ∧ size R = 3
      ∧ (size (healthy env_get_five) ≤ 2 → R = healthy env_get_five)
      ∧ contacted (run (Client_Get range_fixed env_get_five "x")).2
        ≡ₚ (λ kn, (Some kn.2, OpGet "x")) <$> map_to_list R.
Proof.
  split; [reflexivity|].
  exact (Client_Get_quorum_dispatch range_fixed (λ m, reflexivity _) env_get_five "x").
Defined.

(** [env_delete_dead]: [nodeA] reports a miss, no node is healthy afterwards. *)
Lemma Delete_Touch_no_healthy_nodes_first_witness :
  healthyAfter env_delete_dead = 0
  ∧ size (healthy env_delete_dead) ≤ length (arrivals env_delete_dead)
  ∧ Exists is_miss (take (size (healthy env_delete_dead)) (arrivals env_delete_dead))
  ∧ (run (Client_Delete range_fixed env_delete_dead "x")).1 = Ret (Some ErrNoHealthyNodes)
  ∧ (run (Client_Touch range_fixed env_delete_dead "x" 60)).1 = Ret (Some ErrNoHealthyNodes).
Proof.
  split; [reflexivity|]. split; [vm_compute; lia|]. split; [by left|].
  apply (Delete_Touch_no_healthy_nodes_first range_fixed env_delete_dead "x" 60).
  - reflexivity.
  - vm_compute; lia.
Defined.

(** [env_all_failed]: every node timed out and is unhealthy afterwards. *)
Lemma terminal_check_of_writes_witness :
  healthyAfter env_all_failed = 0
  ∧ size (healthy env_all_failed) ≤ length (arrivals env_all_failed)
  ∧ (run (Client_Set range_fixed env_all_failed item_new)).1 = Ret (Some ErrNoHealthyNodes)
  ∧ (run (Client_Add range_fixed env_all_failed reread_ok item_new)).1
    = Ret (Some ErrNoHealthyNodes).
Proof.
  split; [reflexivity|]. split; [vm_compute; lia|].
  destruct (terminal_check_of_writes range_fixed values_fixed env_all_failed reread_ok
              item_new "x" 1 60) as (HSet & HAdd & _).
  - reflexivity.
  - vm_compute; lia.
  - split; [exact HSet|]. apply HAdd.
    intros r Hr. vm_compute in Hr.
    apply elem_of_cons in Hr as [->|Hr]; [discriminate|].
    apply elem_of_cons in Hr as [->|Hr]; [discriminate|].
    by apply elem_of_nil in Hr.
Defined.

(** [sources_second_fails]: the first source reports ["a"; "d"], the second
    fails. *)
Lemma GetNodes_source_error_keeps_additions_witness :
  Forall (λ src : list string * option error, src.2 = None) [(["a"; "d"], None)]
  ∧ let nodeList' :=
      (Client_GetNodes range_fixed probe_up sources_second_fails (cluster [nodeA; nodeB])).1 in
    cluster [nodeA; nodeB] ⊆ nodeList'
    ∧ dom nodeList' = dom (cluster [nodeA; nodeB]) ∪ list_to_set ["a"; "d"]
    ∧ (list_to_set ["a"; "d"] ⊆ dom (cluster [nodeA; nodeB])
       → nodeList' = cluster [nodeA; nodeB])
    ∧ ([(["a"; "d"], @None error)] = [] → nodeList' = cluster [nodeA; nodeB]).
Proof.
  assert (Forall (λ src : list string * option error, src.2 = None) [(["a"; "d"], None)])
    as Hpre by (repeat constructor).
  split; [exact Hpre|].
  exact (GetNodes_source_error_keeps_additions range_fixed probe_up
           [(["a"; "d"], None)] [] [] timeout (cluster [nodeA; nodeB]) Hpre).
Defined.

(** ** The further properties at work on the scenarios *)

Lemma cluster_keys (nodes : list Node) (k : string) (n : Node) :
  cluster nodes !! k = Some n → Endpoint n = k.
Proof.
  unfold cluster. intros Hkn%elem_of_list_to_map_2.
  by apply list_elem_of_fmap in Hkn as (n' & [= -> ->] & _).
Qed.

(** [env_empty]: no healthy node. *)
Lemma empty_snapshot_fails_fast_witness :
  healthy env_empty = ∅
  ∧ run (Client_Add range_fixed env_empty reread_ok item_new)
    = (Ret (Some ErrNoHealthyNodes), [])
  ∧ run (Client_Get range_fixed env_empty "x") = (Ret (None, Some ErrNoHealthyNodes), []).
Proof.
  split; [reflexivity|].
  destruct (empty_snapshot_fails_fast range_fixed values_fixed env_empty reread_ok
              item_new "x" 1 60 eq_refl) as (HAdd & _ & HGet & _).
  by split.
Defined.

(** [env_one_response]: two nodes are called, one answers. *)
Lemma missing_response_blocks_witness :
  length (arrivals env_one_response) < size (healthy env_one_response)
  ∧ run (Client_Set range_fixed env_one_response item_new)
    = (Block, dispatches (OpSet item_new) (range_fixed (healthy env_one_response)))
  ∧ run (Client_Get range_fixed env_one_response "x")
    = (Block, dispatches (OpGet "x")
                (range_fixed (Get_reduce range_fixed (healthy env_one_response)))).
Proof.
  assert (length (arrivals env_one_response) < size (healthy env_one_response)) as Hlen
    by (vm_compute; lia).
  assert (length (arrivals env_one_response)
          < size (Get_reduce range_fixed (healthy env_one_response))) as Hlen'
    by (vm_compute; lia).
  split; [exact Hlen|].
  destruct (missing_response_blocks range_fixed values_fixed env_one_response reread_ok
              item_new "x" 1 60) as [Hwrite Hread].
  destruct (Hwrite Hlen) as (_ & HSet & _).
  split; [exact HSet|exact (Hread Hlen')].
Defined.

(** [env_errors]: both nodes answer an error, [Set] returns nil. *)
Lemma Set_ignores_node_outcomes_witness :
  size (healthy env_errors) ≠ 0
  ∧ size (healthy env_errors) ≤ length (arrivals env_errors)
  ∧ (run (Client_Set range_fixed env_errors item_new)).1 = Ret None.
Proof.
  assert (size (healthy env_errors) ≠ 0) as H0 by (vm_compute; lia).
  assert (size (healthy env_errors) ≤ length (arrivals env_errors)) as Hlen
    by (vm_compute; lia).
  split; [exact H0|]. split; [exact Hlen|].
  exact (proj1 (Set_ignores_node_outcomes range_fixed (λ m, reflexivity _)
                  env_errors item_new H0 Hlen)).
Defined.

(** [env_delete_miss]: [nodeA] reports a miss and a node stays healthy. *)
Lemma Delete_Touch_miss_iff_reported_witness :
  size (healthy env_delete_miss) ≠ 0
  ∧ size (healthy env_delete_miss) ≤ length (arrivals env_delete_miss)
  ∧ healthyAfter env_delete_miss ≠ 0
  ∧ (run (Client_Delete range_fixed env_delete_miss "x")).1
    = Ret (if decide (Exists is_miss (take (size (healthy env_delete_miss))
                                           (arrivals env_delete_miss)))
           then Some ErrCacheMiss else None)
  ∧ Exists is_miss (take (size (healthy env_delete_miss)) (arrivals env_delete_miss)).
Proof.
  assert (size (healthy env_delete_miss) ≠ 0) as H0 by (vm_compute; lia).
  assert (size (healthy env_delete_miss) ≤ length (arrivals env_delete_miss)) as Hlen
    by (vm_compute; lia).
  assert (healthyAfter env_delete_miss ≠ 0) as Hafter by (vm_compute; lia).
  split; [exact H0|]. split; [exact Hlen|]. split; [exact Hafter|]. split.
  - destruct (Delete_Touch_miss_iff_reported range_fixed env_delete_miss "x" 60
                H0 Hlen Hafter) as (HDelete & _).
    by rewrite HDelete.
  - by left.
Defined.

(** [env_add_present]: both nodes hold the key; [env_add_absent]: none does. *)
Lemma Add_agreeing_nodes_witness :
  size (healthy env_add_present) ≠ 0
  ∧ size (healthy env_add_present) ≤ length (arrivals env_add_present)
  ∧ run (Client_Add range_fixed env_add_present reread_ok item_new)
    = (Ret (Some ErrNotStored),
       dispatches (OpAdd item_new) (range_fixed (healthy env_add_present)))
  ∧ run (Client_Add range_fixed env_add_absent reread_ok item_new)
    = (Ret None, dispatches (OpAdd item_new) (range_fixed (healthy env_add_absent))).
Proof.
  assert (size (healthy env_add_present) ≠ 0) as H0 by (vm_compute; lia).
  assert (size (healthy env_add_present) ≤ length (arrivals env_add_present)) as Hlen
    by (vm_compute; lia).
  assert (size (healthy env_add_absent) ≠ 0) as H0' by (vm_compute; lia).
  assert (size (healthy env_add_absent) ≤ length (arrivals env_add_absent)) as Hlen'
    by (vm_compute; lia).
  split; [exact H0|]. split; [exact Hlen|]. split.
  - apply (proj2 (Add_agreeing_nodes range_fixed env_add_present reread_ok item_new H0 Hlen)).
    + by left.
    + change (take _ (arrivals env_add_present))
        with [failed nodeA ErrNotStored; failed nodeB ErrNotStored].
      by repeat constructor.
  - apply (proj1 (Add_agreeing_nodes range_fixed env_add_absent reread_ok item_new H0' Hlen')).
    change (take _ (arrivals env_add_absent)) with [stored nodeA; failed nodeB timeout].
    by repeat constructor.
Defined.

(** [reread_ok]: [nodeB] answers the new item first, [nodeA] the old one last. *)
Lemma Get_returns_last_hit_witness :
  size (healthy reread_ok) ≠ 0
  ∧ size (Get_reduce range_fixed (healthy reread_ok)) ≤ length (arrivals reread_ok)
  ∧ is_hit (found nodeB item_new)
  ∧ (run (Client_Get range_fixed reread_ok "x")).1 = Ret (Some item_old, None).
Proof.
  assert (size (healthy reread_ok) ≠ 0) as H0 by (vm_compute; lia).
  assert (size (Get_reduce range_fixed (healthy reread_ok)) ≤ length (arrivals reread_ok))
    as Hlen by (vm_compute; lia).
  split; [exact H0|]. split; [exact Hlen|]. split; [by split|].
  apply (Get_returns_last_hit range_fixed reread_ok "x"
           [found nodeB item_new] (found nodeA item_old) [] item_old H0 Hlen).
  - reflexivity.
  - by split.
  - reflexivity.
  - constructor.
Defined.

(** [env_all_failed]: both nodes time out, none reports a miss. *)
Lemma Increment_without_value_is_miss_witness :
  size (healthy env_all_failed) ≠ 0
  ∧ size (healthy env_all_failed) ≤ length (arrivals env_all_failed)
  ∧ Forall (λ r, ¬ is_miss r) (take (size (healthy env_all_failed)) (arrivals env_all_failed))
  ∧ run (Client_Increment range_fixed values_fixed env_all_failed "ctr" 1)
    = (Ret (0%Z, Some ErrCacheMiss),
       dispatches (OpIncrement "ctr" 1) (range_fixed (healthy env_all_failed))).
Proof.
  assert (size (healthy env_all_failed) ≠ 0) as H0 by (vm_compute; lia).
  assert (size (healthy env_all_failed) ≤ length (arrivals env_all_failed)) as Hlen
    by (vm_compute; lia).
  split; [exact H0|]. split; [exact Hlen|].
  change (take (size (healthy env_all_failed)) (arrivals env_all_failed))
    with [failed nodeA timeout; failed nodeB timeout].
  split; [by repeat constructor|].
  apply (Increment_without_value_is_miss range_fixed values_fixed env_all_failed "ctr" 1
           H0 Hlen).
  change (take (size (healthy env_all_failed)) (arrivals env_all_failed))
    with [failed nodeA timeout; failed nodeB timeout].
  by repeat constructor.
Defined.

(** [env_incr_low_first]: the nodes answer 10, 11 and 11, the re-read gives
    [item_ctr]. *)
Lemma Increment_returns_maximum_witness :
  size (healthy env_incr_low_first) ≠ 0
  ∧ arrivals env_incr_low_first !! size (healthy env_incr_low_first)
    = Some (found nodeA item_ctr)
  ∧ ∃ m,
      (∃ r, r ∈ take (size (healthy env_incr_low_first)) (arrivals env_incr_low_first)
            ∧ is_stored r ∧ resp_NewValue r = m)
      ∧ (∀ r, r ∈ take (size (healthy env_incr_low_first)) (arrivals env_incr_low_first)
              → is_stored r → (resp_NewValue r ≤ m)%Z)
      ∧ (run (Client_Increment range_fixed values_fixed env_incr_low_first "ctr" 1)).1
        = Ret (m, None).
Proof.
  assert (size (healthy env_incr_low_first) ≠ 0) as H0 by (vm_compute; lia).
  split; [exact H0|]. split; [reflexivity|].
  apply (Increment_returns_maximum range_fixed values_fixed env_incr_low_first "ctr" 1
           (found nodeA item_ctr) item_ctr H0).
  - change (take _ (arrivals env_incr_low_first))
      with [counted nodeC 10; counted nodeA 11; counted nodeB 11].
    by left.
  - change (take _ (arrivals env_incr_low_first))
      with [counted nodeC 10; counted nodeA 11; counted nodeB 11].
    by repeat constructor.
  - reflexivity.
  - reflexivity.
  - reflexivity.
Defined.

Lemma Increment_repairs_misses_and_low_values_witness :
  size (healthy env_incr_low_first) ≠ 0
  ∧ (run (Client_Increment range_fixed values_fixed env_incr_low_first "ctr" 1)).1
    = Ret (11%Z, None)
  ∧ ∀ n it', (n, it') ∈ repairs (run (Client_Increment range_fixed values_fixed
                                       env_incr_low_first "ctr" 1)).2 →
      it' = item_ctr
      ∧ ∃ r, r ∈ take (size (healthy env_incr_low_first)) (arrivals env_incr_low_first)
             ∧ resp_Node r = n
             ∧ (is_miss r ∨ (is_stored r ∧ (resp_NewValue r < 11)%Z)).
Proof.
  assert (size (healthy env_incr_low_first) ≠ 0) as H0 by (vm_compute; lia).
  assert ((run (Client_Increment range_fixed values_fixed env_incr_low_first "ctr" 1)).1
          = Ret (11%Z, None)) as Hres by (vm_compute; reflexivity).
  split; [exact H0|]. split; [exact Hres|].
  apply (Increment_repairs_misses_and_low_values range_fixed values_fixed
           (λ m, reflexivity _) env_incr_low_first "ctr" 1
           (found nodeA item_ctr) item_ctr 11 H0).
  - change (take _ (arrivals env_incr_low_first))
      with [counted nodeC 10; counted nodeA 11; counted nodeB 11].
    by left.
  - change (take _ (arrivals env_incr_low_first))
      with [counted nodeC 10; counted nodeA 11; counted nodeB 11].
    by repeat constructor.
  - reflexivity.
  - reflexivity.
  - reflexivity.
  - exact Hres.
Defined.

(** [env_incr_agree]: two nodes answer 11, one times out. *)
Lemma Increment_agreeing_nodes_witness :
  size (healthy env_incr_agree) ≠ 0
  ∧ size (healthy env_incr_agree) ≤ length (arrivals env_incr_agree)
  ∧ run (Client_Increment range_fixed values_fixed env_incr_agree "ctr" 1)
    = (Ret (11%Z, None),
       dispatches (OpIncrement "ctr" 1) (range_fixed (healthy env_incr_agree))).
Proof.
  assert (size (healthy env_incr_agree) ≠ 0) as H0 by (vm_compute; lia).
  assert (size (healthy env_incr_agree) ≤ length (arrivals env_incr_agree)) as Hlen
    by (vm_compute; lia).
  split; [exact H0|]. split; [exact Hlen|].
  apply (Increment_agreeing_nodes range_fixed values_fixed (λ m, reflexivity _)
           env_incr_agree "ctr" 1 11 H0 Hlen).
  - change (take _ (arrivals env_incr_agree))
      with [counted nodeA 11; failed nodeB timeout; counted nodeC 11].
    by left.
  - change (take _ (arrivals env_incr_agree))
      with [counted nodeA 11; failed nodeB timeout; counted nodeC 11].
    repeat constructor; try done; unfold is_stored; simpl; discriminate.
Defined.

(** [sources_ok] on the NodeList of [nodeA] and [nodeB]: "a" is kept, "d" is
    new, "b" is removed. *)
Lemma GetNodes_installs_reported_endpoints_witness :
  Forall (λ src : list string * option error, src.2 = None) sources_ok
  ∧ dom (Client_GetNodes range_fixed probe_up sources_ok (cluster [nodeA; nodeB])).1
    = reported sources_ok
  ∧ (Client_GetNodes range_fixed probe_up sources_ok (cluster [nodeA; nodeB])).1 !! "a"
    = Some nodeA
  ∧ (Client_GetNodes range_fixed probe_up sources_ok (cluster [nodeA; nodeB])).1 !! "d"
    = Some (NewNode "d").
Proof.
  assert (Forall (λ src : list string * option error, src.2 = None) sources_ok) as Hok
    by (by repeat constructor).
  split; [exact Hok|].
  destruct (GetNodes_installs_reported_endpoints range_fixed (λ m, reflexivity _) probe_up
              sources_ok (cluster [nodeA; nodeB]) Hok) as (Hdom & Hkept & Hnew).
  split; [exact Hdom|]. split.
  - apply Hkept; [|reflexivity]. unfold reported. simpl. set_solver.
  - apply Hnew; [|reflexivity]. unfold reported. simpl. set_solver.
Defined.

Lemma GetNodes_checks_new_endpoints_once_witness :
  Forall (λ src : list string * option error, src.2 = None) sources_ok
  ∧ NoDup (probes (Client_GetNodes range_fixed probe_up sources_ok
                     (cluster [nodeA; nodeB])).2)
  ∧ NewNode "d" ∈ probes (Client_GetNodes range_fixed probe_up sources_ok
                            (cluster [nodeA; nodeB])).2.
Proof.
  assert (Forall (λ src : list string * option error, src.2 = None) sources_ok) as Hok
    by (by repeat constructor).
  split; [exact Hok|].
  destruct (GetNodes_checks_new_endpoints_once range_fixed probe_up sources_ok
              (cluster [nodeA; nodeB]) Hok) as (Hnd & Hin).
  split; [exact Hnd|]. apply Hin. exists "d". split; [|by split].
  unfold reported. simpl. set_solver.
Defined.

(** The NodeList of [nodeA] and [nodeD] already holds what [sources_ok]
    reports. *)
Lemma GetNodes_converged_is_noop_witness :
  Forall (λ src : list string * option error, src.2 = None) sources_ok
  ∧ dom (cluster [nodeA; nodeD]) = reported sources_ok
  ∧ Client_GetNodes range_fixed probe_up sources_ok (cluster [nodeA; nodeD])
    = (cluster [nodeA; nodeD], []).
Proof.
  assert (Forall (λ src : list string * option error, src.2 = None) sources_ok) as Hok
    by (by repeat constructor).
  assert (dom (cluster [nodeA; nodeD]) = reported sources_ok) as Hdom.
  { unfold cluster, reported. simpl. rewrite !dom_insert_L, dom_empty_L. set_solver. }
  split; [exact Hok|]. split; [exact Hdom|].
  exact (GetNodes_converged_is_noop range_fixed (λ m, reflexivity _) probe_up
           sources_ok (cluster [nodeA; nodeD]) Hok Hdom).
Defined.

Lemma GetNodes_keeps_endpoint_keys_witness :
  (∀ k n, cluster [nodeA; nodeB] !! k = Some n → Endpoint n = k)
  ∧ ∀ k n, (Client_GetNodes range_fixed probe_up sources_second_fails
              (cluster [nodeA; nodeB])).1 !! k = Some n → Endpoint n = k.
Proof.
  split; [apply cluster_keys|].
  apply (GetNodes_keeps_endpoint_keys range_fixed probe_up sources_second_fails
           (cluster [nodeA; nodeB])).
  apply cluster_keys.
Defined.

Lemma HealthCheck_nil_iff_all_pass_witness :
  (∀ m, range_fixed m ≡ₚ map_to_list m)
  ∧ (Client_HealthCheck range_fixed probe_up (cluster [nodeA; nodeB])).1 = None
  ∧ probes (Client_HealthCheck range_fixed probe_up (cluster [nodeA; nodeB])).2
    ≡ₚ (map_to_list (cluster [nodeA; nodeB])).*2.
Proof.
  split; [reflexivity|].
  destruct (HealthCheck_nil_iff_all_pass range_fixed (λ m, reflexivity _) probe_up
              (cluster [nodeA; nodeB])) as [Hiff Hall].
  assert ((Client_HealthCheck range_fixed probe_up (cluster [nodeA; nodeB])).1 = None)
    as Hnil by (apply Hiff; reflexivity).
  split; [exact Hnil|exact (Hall Hnil)].
Defined.

(** [polls_healthy]: the third poll sees a node; with the deadline at 250 the
    call returns nil, with the deadline at 150 that poll is too late. *)
Lemma WaitForNodes_first_decisive_poll_witness :
  Forall (λ p : Z * nat, (p.1 ≤ 250)%Z ∧ p.2 = 0) [(0%Z, 0); (100%Z, 0)]
  ∧ WaitForNodes 250 polls_healthy = Some None
  ∧ Forall (λ p : Z * nat, (p.1 ≤ 150)%Z ∧ p.2 = 0) [(0%Z, 0); (100%Z, 0)]
  ∧ WaitForNodes 150 polls_healthy = Some (Some ErrNoHealthyNodes).
Proof.
  assert (Forall (λ p : Z * nat, (p.1 ≤ 250)%Z ∧ p.2 = 0) [(0%Z, 0); (100%Z, 0)]) as Hpre
    by (repeat constructor; simpl; lia).
  assert (Forall (λ p : Z * nat, (p.1 ≤ 150)%Z ∧ p.2 = 0) [(0%Z, 0); (100%Z, 0)]) as Hpre'
    by (repeat constructor; simpl; lia).
  split; [exact Hpre|]. split.
  - apply (proj2 (WaitForNodes_first_decisive_poll 250 200 1 [(0%Z, 0); (100%Z, 0)]
                    [(300%Z, 1)] Hpre)); lia.
  - split; [exact Hpre'|].
    apply (proj1 (WaitForNodes_first_decisive_poll 150 200 1 [(0%Z, 0); (100%Z, 0)]
                    [(300%Z, 1)] Hpre')). lia.
Defined.

(** [polls_unhealthy]: no poll sees a node; the deadline at 250 is passed at
    the fourth poll. *)
Lemma WaitForNodes_returns_witness :
  (0 < 100)%Z
  ∧ advancing 100 polls_unhealthy
  ∧ ((250 - 0) / 100 + 1 < Z.of_nat (length polls_unhealthy))%Z
  ∧ is_Some (WaitForNodes 250 polls_unhealthy).
Proof.
  assert (advancing 100 polls_unhealthy) as Hadv.
  { intros i p q Hp Hq.
    destruct i as [|[|[|[|i]]]]; simpl in Hp, Hq; simplify_eq; simpl; lia. }
  assert ((250 - 0) / 100 + 1 < Z.of_nat (length polls_unhealthy))%Z as Hlen
    by (vm_compute; reflexivity).
  split; [lia|]. split; [exact Hadv|]. split; [exact Hlen|].
  exact (proj1 (WaitForNodes_returns 100 250 0 0
                  [(100%Z, 0); (200%Z, 0); (300%Z, 0)] ltac:(lia) Hadv Hlen)).
Defined.

(** [tick_first]: twenty seconds in, both sources answer, every check passes. *)
Lemma runloop_first_tick_witness :
  (period_get_nodes < now tick_first)%Z
  ∧ (period_healthcheck < now tick_first)%Z
  ∧ dom (loop_Nodes (runloop range_fixed period_get_nodes period_healthcheck
                       [Timer tick_first] (cluster [nodeA; nodeB])))
    = reported (sources tick_first)
  ∧ lastHealthCheck (runloop range_fixed period_get_nodes period_healthcheck
                       [Timer tick_first] (cluster [nodeA; nodeB]))
    = now_checked tick_first.
Proof.
  assert (period_get_nodes < now tick_first)%Z as HP1 by (vm_compute; reflexivity).
  assert (period_healthcheck < now tick_first)%Z as HP2 by (vm_compute; reflexivity).
  split; [exact HP1|]. split; [exact HP2|].
  destruct (runloop_first_tick range_fixed period_get_nodes period_healthcheck tick_first
              (cluster [nodeA; nodeB]) (λ m, reflexivity _) HP1 HP2)
    as (Hdom & _ & _ & Hlast & _).
  - by repeat constructor.
  - reflexivity.
  - split; [exact Hdom|exact Hlast].
Defined.
